(** * json-schema-deref-sync: the reference-resolution engine of [lib/index.js]

    The engine clones the caller's document, walks the clone with the
    [traverse] package and replaces every [$ref] node in place.  Objects are
    shared by reference in JavaScript, so the working copy is modelled as a
    store of cells addressed by pointers: a value installed at a second place
    is the same cell, and a later write through one place is seen through the
    other. *)

From Stdlib Require Import ZArith String Ascii List Bool Lia DecimalString.
From stdpp Require Import base option list.
Import ListNotations.
Set Warnings "-register-all".
Local Open Scope string_scope.
Local Open Scope list_scope.

(** [a.concat(b)] on strings. *)
Local Infix "+++" := String.append (at level 60, right associativity).

(** ** Strings as the code uses them *)

Module Str.

(** [s.charAt(0) === '#'] *)
Definition starts_with_hash (s : string) : bool :=
  match s with
  | String c _ => Ascii.eqb c "#"
  | EmptyString => false
  end.

(** [s.split(c)] for a one-character separator. *)
Fixpoint split_aux (c : ascii) (cur : string) (s : string) : list string :=
  match s with
  | EmptyString => [cur]
  | String a r =>
      if Ascii.eqb a c then cur :: split_aux c "" r
      else split_aux c (cur +++ String a "") r
  end.

Definition split (c : ascii) (s : string) : list string := split_aux c "" s.

(** [parts.join(sep)] *)
Fixpoint join (sep : string) (parts : list string) : string :=
  match parts with
  | [] => ""
  | [p] => p
  | p :: r => p +++ sep +++ join sep r
  end.

(** [s.toLowerCase()] on ASCII letters. *)
Definition lower_ascii (a : ascii) : ascii :=
  let n := nat_of_ascii a in
  if (65 <=? n)%nat && (n <=? 90)%nat then ascii_of_nat (n + 32) else a.

Fixpoint toLowerCase (s : string) : string :=
  match s with
  | EmptyString => EmptyString
  | String a r => String (lower_ascii a) (toLowerCase r)
  end.

(** [s.substring(n)] *)
Fixpoint drop (n : nat) (s : string) : string :=
  match n, s with
  | 0, _ => s
  | S n', String _ r => drop n' r
  | S _, EmptyString => EmptyString
  end.

(** [hay.indexOf(needle) >= 0] *)
Definition contains (needle hay : string) : bool :=
  match String.index 0 needle hay with
  | Some _ => true
  | None => false
  end.

(** [s.indexOf('#') >= 0] *)
Definition has_hash (s : string) : bool := contains "#" s.

Definition nonempty (s : string) : bool := negb (String.eqb s "").

(** Decimal rendering of an array index, as [Object.keys] gives it. *)
Definition of_nat (n : nat) : string := NilEmpty.string_of_uint (Nat.to_uint n).

(** [list.indexOf(x) !== -1] *)
Definition mem (x : string) (l : list string) : bool := existsb (String.eqb x) l.

(** [list.splice(list.indexOf(x), 1)] when [x] occurs in [list]. *)
Fixpoint remove_first (x : string) (l : list string) : list string :=
  match l with
  | [] => []
  | y :: r => if String.eqb x y then r else y :: remove_first x r
  end.

End Str.

(** ** Documents *)

(** The error objects the engine creates, by message. *)
Inductive error : Type :=
| CircularSelf                                (* 'Circular self reference' *)
| CircularFromTo (from to : string)           (* 'Circular self reference from .. to ..' *)
| CircularRefsFound (refs : list string)      (* 'circular references found: ..' *)
| MissingRef (refVal : string).               (* 'Missing $ref: ..' *)

(** The spec's CircularReference kind covers the three circular messages. *)
Definition is_circular_reference (e : error) : bool :=
  match e with
  | MissingRef _ => false
  | _ => true
  end.

(** A document as the caller sees it: the JSON data model, with integers
    for numbers (the engine only tests a number for being zero) and the
    members of an object in the order [Object.keys] gives them.  [JErr] is
    an [Error] object sitting inside a document, which the engine itself
    can put there. *)
Inductive json : Type :=
| JNull
| JBool (b : bool)
| JNum (n : Z)
| JStr (s : string)
| JArr (items : list json)
| JObj (fields : list (string * json))
| JErr (e : error).

(** A JavaScript value of the working copy: primitives by value, arrays and
    objects by reference into the store. *)
Inductive val : Type :=
| VNull
| VBool (b : bool)
| VNum (n : Z)
| VStr (s : string)
| VErr (e : error)
| VPtr (a : nat).

Inductive cell : Type :=
| CArr (items : list val)
| CObj (fields : list (string * val)).

Definition heap : Type := list cell.

(** A property name as [traverse] uses it: an object key or an array index. *)
Inductive key : Type :=
| KProp (k : string)
| KIdx (i : nat).

Definition key_string (k : key) : string :=
  match k with
  | KProp s => s
  | KIdx i => Str.of_nat i
  end.

Definition val_eqb (x y : val) : bool :=
  match x, y with
  | VPtr a, VPtr b => Nat.eqb a b
  | _, _ => false
  end.

(** JavaScript truthiness. *)
Definition truthy (v : val) : bool :=
  match v with
  | VNull => false
  | VBool b => b
  | VNum n => negb (Z.eqb n 0)
  | VStr s => Str.nonempty s
  | VErr _ => true
  | VPtr _ => true
  end.

Definition truthy_opt (o : option val) : bool :=
  match o with
  | Some v => truthy v
  | None => false
  end.

Fixpoint assoc {A : Type} (k : string) (l : list (string * A)) : option A :=
  match l with
  | [] => None
  | (k', x) :: r => if String.eqb k k' then Some x else assoc k r
  end.

(** Assignment to an existing property keeps its position. *)
Fixpoint assoc_set {A : Type} (k : string) (x : A) (l : list (string * A))
  : list (string * A) :=
  match l with
  | [] => []
  | (k', y) :: r => if String.eqb k k' then (k', x) :: r else (k', y) :: assoc_set k x r
  end.

(** [table[k] = x]: an existing property keeps its position, a new one
    comes last. *)
Definition assoc_put {A : Type} (k : string) (x : A) (l : list (string * A))
  : list (string * A) :=
  match assoc k l with
  | Some _ => assoc_set k x l
  | None => l ++ [(k, x)]
  end.

(** [Object.keys(node)] *)
Definition objectKeys (c : cell) : list key :=
  match c with
  | CArr items => map KIdx (seq 0 (length items))
  | CObj fields => map (fun p => KProp (fst p)) fields
  end.

(** [node[key]] *)
Definition cell_get (c : cell) (k : key) : option val :=
  match c, k with
  | CArr items, KIdx i => items !! i
  | CObj fields, KProp s => assoc s fields
  | _, _ => None
  end.

(** [node[key] = x] for a key the node has. *)
Definition cell_set (c : cell) (k : key) (x : val) : cell :=
  match c, k with
  | CArr items, KIdx i => CArr (<[i := x]> items)
  | CObj fields, KProp s => CObj (assoc_set s x fields)
  | _, _ => c
  end.

Definition store_set (h : heap) (a : nat) (k : key) (x : val) : heap :=
  match h !! a with
  | Some c => <[a := cell_set c k x]> h
  | None => h
  end.

(** [clone(schema)]: a deep copy, every array and object a new cell.
    Children are copied first, so a cell only points to older cells. *)
Fixpoint alloc (j : json) (h : heap) : val * heap :=
  match j with
  | JNull => (VNull, h)
  | JBool b => (VBool b, h)
  | JNum n => (VNum n, h)
  | JStr s => (VStr s, h)
  | JErr e => (VErr e, h)
  | JArr items =>
      let '(vs, h1) :=
        (fix go (l : list json) (h : heap) : list val * heap :=
           match l with
           | [] => ([], h)
           | x :: r =>
               let '(v, h1) := alloc x h in
               let '(vs, h2) := go r h1 in
               (v :: vs, h2)
           end) items h in
      (VPtr (length h1), h1 ++ [CArr vs])
  | JObj fields =>
      let '(fs, h1) :=
        (fix go (l : list (string * json)) (h : heap) : list (string * val) * heap :=
           match l with
           | [] => ([], h)
           | (k, x) :: r =>
               let '(v, h1) := alloc x h in
               let '(fs, h2) := go r h1 in
               ((k, v) :: fs, h2)
           end) fields h in
      (VPtr (length h1), h1 ++ [CObj fs])
  end.

(** Reading a value of the store back as a document; sharing is unfolded,
    and a cyclic structure has no reading at any [fuel]. *)
Fixpoint reify (fuel : nat) (h : heap) (v : val) : option json :=
  match v with
  | VNull => Some JNull
  | VBool b => Some (JBool b)
  | VNum n => Some (JNum n)
  | VStr s => Some (JStr s)
  | VErr e => Some (JErr e)
  | VPtr a =>
      match fuel with
      | 0 => None
      | S f =>
          match h !! a with
          | None => None
          | Some (CArr items) =>
              option_map JArr
                ((fix go (l : list val) : option (list json) :=
                    match l with
                    | [] => Some []
                    | x :: r =>
                        match reify f h x, go r with
                        | Some j, Some js => Some (j :: js)
                        | _, _ => None
                        end
                    end) items)
          | Some (CObj fields) =>
              option_map JObj
                ((fix go (l : list (string * val)) : option (list (string * json)) :=
                    match l with
                    | [] => Some []
                    | (k, x) :: r =>
                        match reify f h x, go r with
                        | Some j, Some js => Some ((k, j) :: js)
                        | _, _ => None
                        end
                    end) fields)
          end
      end
  end.

(** No object of the document has a [$ref] key. *)
Fixpoint no_ref_key (j : json) : bool :=
  match j with
  | JArr items => forallb no_ref_key items
  | JObj fields =>
      negb (existsb (fun p => String.eqb (fst p) "$ref") fields)
      && forallb (fun p => no_ref_key (snd p)) fields
  | _ => true
  end.

(** ** [lib/utils.js], which the engine calls for every reference *)

Inductive refType : Type :=
| Local
| File
| Unsupported.

Definition refType_eqb (x y : refType) : bool :=
  match x, y with
  | Local, Local | File, File | Unsupported, Unsupported => true
  | _, _ => false
  end.

(** Modelled from the spec: [utils.getRefValue] is not among the sources;
    the spec's data model has a reference node be an object with a
    string-valued [$ref] field that names the target.  This is also the
    engine's own test [typeof node.$ref === 'string']. *)
Definition getRefValue (h : heap) (node : val) : option string :=
  match node with
  | VPtr a =>
      match h !! a with
      | Some (CObj fields) =>
          match assoc "$ref" fields with
          | Some (VStr s) => Some s
          | _ => None
          end
      | _ => None
      end
  | _ => None
  end.

(** Modelled from the spec: [utils.getRefFilePath] is not among the sources;
    the spec's classifier splits on the first [#] to separate the target
    from the pointer, and without [#] the whole string is the target. *)
Definition getRefFilePath (refVal : string) : string :=
  match Str.split "#" refVal with
  | target :: _ => target
  | [] => refVal
  end.

(** Modelled from the spec: the pointer of a reference string is what
    follows its first [#]; a string without [#] is a pointer already. *)
Definition pointer_of (refPath : string) : string :=
  match String.index 0 "#" refPath with
  | Some i => Str.drop (S i) refPath
  | None => refPath
  end.

(** Modelled from the spec: split the pointer on [/] and discard a leading
    empty segment. *)
Definition pointer_segments (refPath : string) : list string :=
  match Str.split "/" (pointer_of refPath) with
  | "" :: rest => rest
  | segs => segs
  end.

(** Modelled from the spec: one segment applied to a value is an object
    key or a sequence index, and is absent on a scalar. *)
Definition step_segment (h : heap) (v : val) (seg : string) : option val :=
  match v with
  | VPtr a =>
      match h !! a with
      | Some (CObj fields) => assoc seg fields
      | Some (CArr items) =>
          match find (fun i => String.eqb (Str.of_nat i) seg) (seq 0 (length items)) with
          | Some i => items !! i
          | None => None
          end
      | None => None
      end
  | _ => None
  end.

Fixpoint walk_segments (h : heap) (v : val) (segs : list string) : option val :=
  match segs with
  | [] => Some v
  | seg :: rest =>
      match step_segment h v seg with
      | Some v' => walk_segments h v' rest
      | None => None
      end
  end.

(** Modelled from the spec: [utils.getRefPathValue] is not among the
    sources; the spec's pointer path resolver walks the document one
    segment at a time and is not found when a segment is absent or applied
    to a scalar.  [None] is JavaScript's [undefined]. *)
Definition getRefPathValue (h : heap) (schema : val) (refPath : string) : option val :=
  walk_segments h schema (pointer_segments refPath).

(** ** The static pass: [checkLocalCircular] *)

Record edge : Type := mkEdge { from : string; to : string }.

(** [dag-map]'s graph, as the list of edges added so far. *)
Definition dag : Type := list (string * string).

(** [visit(from, checkCycle)]: does walking the incoming edges from [v]
    meet the vertex [target]?  A simple path has at most [length g] edges. *)
Fixpoint reaches_back (n : nat) (g : dag) (v target : string) : bool :=
  String.eqb v target
  || match n with
     | 0 => false
     | S n' =>
         existsb (fun e => String.eqb (snd e) v && reaches_back n' g (fst e) target) g
     end.

(** [dag.addEdge(from, to)]; [None] is the thrown "cycle detected". *)
Definition addEdge (g : dag) (fromName toName : string) : option dag :=
  if negb (Str.nonempty fromName) || negb (Str.nonempty toName)
     || String.eqb fromName toName then Some g
  else if existsb (fun e => String.eqb (fst e) fromName && String.eqb (snd e) toName) g
  then Some g
  else if reaches_back (length g) g fromName toName then None
  else Some (g ++ [(fromName, toName)]).

(** The callback of [_.find(locals, ...)], threading the graph. *)
Fixpoint find_circular (g : dag) (locals : list edge) : option edge :=
  match locals with
  | [] => None
  | elem :: rest =>
      let from_ := from elem +++ "/" in
      let dest := Str.drop 2 (to elem) +++ "/" in
      match addEdge g from_ dest with
      | None => Some elem
      | Some g' =>
          if Str.contains dest from_ then Some elem else find_circular g' rest
      end
  end.

(** What [checkLocalCircular] does with the collected local references. *)
Definition check_locals (locals : list edge) : option error :=
  match locals with
  | [] => None
  | _ =>
      if existsb (fun elem => String.eqb (to elem) "#") locals then Some CircularSelf
      else match find_circular [] locals with
           | Some elem => Some (CircularFromTo (from elem) (to elem))
           | None => None
           end
  end.

(** [traverse]'s test for a node that is one of its own ancestors. *)
Definition is_circular (parents : list val) (node_ : val) : bool :=
  existsb (val_eqb node_) parents.

(** ** Options, resolution state and the world of one call *)

(** The caller's options object; an absent [baseFolder] is [None]. *)
Record options : Type := mkOptions {
  baseFolder : option string;
  failOnMissing : bool
}.

(** The [state] object of [deref] ([graph] is created and never used). *)
Record state : Type := mkState {
  circular : bool;
  circularRefs : list string;
  cwd : string;
  missing : list string;
  history : list string;
  current : string;
  error_ : option error
}.

(** One call of a loader: the arguments the engine passed, and the full
    path under which the engine caches the document. *)
Record load_event : Type := mkLoad {
  load_ref : string;
  load_options : options;
  load_path : string
}.

(** Everything a call can read or write: the store of the working copies,
    the module-level [cache], the [state], the options object (the engine
    writes to it) and the loader calls made so far. *)
Record world : Type := mkWorld {
  store : heap;
  cache : list (string * val);
  st : state;
  opts : options;
  loads : list load_event
}.

Definition set_store (h : heap) (w : world) : world :=
  mkWorld h (cache w) (st w) (opts w) (loads w).
Definition set_cache (c : list (string * val)) (w : world) : world :=
  mkWorld (store w) c (st w) (opts w) (loads w).
Definition set_st (s : state) (w : world) : world :=
  mkWorld (store w) (cache w) s (opts w) (loads w).
Definition set_opts (o : options) (w : world) : world :=
  mkWorld (store w) (cache w) (st w) o (loads w).
Definition add_load (e : load_event) (w : world) : world :=
  mkWorld (store w) (cache w) (st w) (opts w) (loads w ++ [e]).

Definition set_cwd (d : string) (s : state) : state :=
  mkState (circular s) (circularRefs s) d (missing s) (history s) (current s) (error_ s).
Definition set_missing (m : list string) (s : state) : state :=
  mkState (circular s) (circularRefs s) (cwd s) m (history s) (current s) (error_ s).
Definition set_history (l : list string) (s : state) : state :=
  mkState (circular s) (circularRefs s) (cwd s) (missing s) l (current s) (error_ s).
Definition set_current (c : string) (s : state) : state :=
  mkState (circular s) (circularRefs s) (cwd s) (missing s) (history s) c (error_ s).
Definition set_error (e : error) (s : state) : state :=
  mkState (circular s) (circularRefs s) (cwd s) (missing s) (history s) (current s) (Some e).
Definition set_circular (refVal : string) (s : state) : state :=
  mkState true (circularRefs s ++ [refVal]) (cwd s) (missing s) (history s) (current s)
          (error_ s).

(** [options.baseFolder = state.cwd = d] *)
Definition set_base (d : string) (w : world) : world :=
  set_opts (mkOptions (Some d) (failOnMissing (opts w))) (set_st (set_cwd d (st w)) w).

(** What the engine takes from its host: Node's [process] and [path], the
    fingerprint [md5(JSON.stringify(schema))], and the parts of the
    repository that are not among the sources: [utils.isAbsolute], the
    shape of a reference string that [utils.getRefType] gives to the file
    loader, and the file loader of [loaders/file.js] itself, which by the
    spec is a function from the reference string and the options to a
    document or "not found". *)
Record host : Type := mkHost {
  process_cwd : string;
  isAbsolute : string -> bool;
  path_resolve : string -> string -> string;
  path_dirname : string -> string;
  is_file_ref : string -> bool;
  fingerprint : json -> string;
  fileLoader : string -> options -> option json
}.

Section Engine.

Variable H : host.

(** Modelled from the spec: [utils.getRefType] is not among the sources;
    the spec's classifier makes a string starting with [#] local, a string
    of a shape with a registered loader that loader's kind, and anything
    else unsupported.  The engine registers the file loader only. *)
Definition getRefType (h : heap) (node : val) : refType :=
  match getRefValue h node with
  | Some refVal =>
      if Str.starts_with_hash refVal then Local
      else if is_file_ref H refVal then File
      else Unsupported
  | None => Unsupported
  end.

(** The callback of [traverse(schema).reduce] in [checkLocalCircular]. *)
Definition collect_local (h : heap) (path : list key) (node : val) (acc : list edge)
  : list edge :=
  match getRefValue h node with
  | Some value =>
      match getRefType h node with
      | Local =>
          if Str.nonempty value
          then acc ++ [mkEdge (Str.join "/" (map key_string path)) value]
          else acc
      | _ => acc
      end
  | None => acc
  end.

(** [traverse(schema).reduce(...)]: every node once, parents first, keys
    in order; a node that is its own ancestor is not entered again. *)
Fixpoint scan (fuel : nat) (h : heap) (parents : list val) (path : list key)
    (node : val) (acc : list edge) : option (list edge) :=
  match fuel with
  | 0 => None
  | S f =>
      let acc1 := collect_local h path node acc in
      match node with
      | VPtr a =>
          if is_circular parents node then Some acc1
          else match h !! a with
               | None => None
               | Some c =>
                   (fix go (keys : list key) (acc : list edge) : option (list edge) :=
                      match keys with
                      | [] => Some acc
                      | k :: r =>
                          match cell_get c k with
                          | None => None
                          | Some child =>
                              match scan f h (parents ++ [node]) (path ++ [k]) child acc with
                              | Some acc' => go r acc'
                              | None => None
                              end
                          end
                      end) (objectKeys c) acc1
               end
      | _ => Some acc1
      end
  end.

Definition checkLocalCircular (fuel : nat) (h : heap) (schema : val)
  : option (option error) :=
  option_map check_locals (scan fuel h [] [] schema []).

Definition addToHistory (s : state) (type : refType) (value : string) : bool * state :=
  let dest :=
    match type with
    | File => Some (getRefFilePath value)
    | _ => if String.eqb value "#" then None else Some (current s +++ ":" +++ value)
    end in
  match dest with
  | None => (false, s)
  | Some dest =>
      if Str.nonempty dest then
        let dest := Str.toLowerCase dest in
        if Str.mem dest (history s) then (false, s)
        else (true, set_history (history s ++ [dest]) s)
      else (true, s)
  end.

Definition setCurrent (s : state) (type : refType) (value : string) : state :=
  match type with
  | File =>
      let dest := getRefFilePath value in
      if Str.nonempty dest then set_current dest s else s
  | _ => s
  end.

(** [state.history.pop()] *)
Definition history_pop (s : state) : state := set_history (removelast (history s)) s.

(** The recursive call [derefSchema(loaderValue, options, state)]. *)
Variable derefSchema_rec : val -> world -> option (val * world).

(** [fullRefFilePath], the key of a file reference in the cache. *)
Definition full_path (refVal : string) (w : world) : string :=
  let filePath := getRefFilePath refVal in
  if isAbsolute H filePath then filePath else path_resolve H (cwd (st w)) filePath.

(** The file branch of [getRefSchema], first half: the cached document,
    or else the document the loader gives, resolved in its own folder. *)
Definition file_value (refVal : string) (w : world) : option (option val * world) :=
  let filePath := getRefFilePath refVal in
  let fullRefFilePath := full_path refVal w in
  let cached := assoc fullRefFilePath (cache w) in
  if truthy_opt cached then Some (cached, w)
  else
    let w := add_load (mkLoad refVal (opts w) fullRefFilePath) w in
    match fileLoader H refVal (opts w) with
    | None => Some (None, w)
    | Some doc =>
        let '(loaderValue, h) := alloc doc (store w) in
        let w := set_store h w in
        if truthy loaderValue then
          let dirname := path_dirname H filePath in
          let dirname := if String.eqb dirname "." then "" else dirname in
          let oldBasePath := if Str.nonempty dirname then Some (cwd (st w)) else None in
          let w :=
            if Str.nonempty dirname then
              let newBasePath := path_resolve H (cwd (st w)) dirname in
              set_base newBasePath w
            else w in
          match derefSchema_rec loaderValue w with
          | None => None
          | Some (loaderValue, w) =>
              let w :=
                match oldBasePath with
                | Some old => if Str.nonempty old then set_base old w else w
                | None => w
                end in
              Some (Some loaderValue, w)
          end
        else Some (Some loaderValue, w)
    end.

(** Second half: keep the document in the cache and follow the pointer
    of the reference, if it has one. *)
Definition pick_value (refVal fullRefFilePath : string) (loaderValue : option val)
    (w : world) : option val * world :=
  match loaderValue with
  | Some lv =>
      if truthy lv then
        let w :=
          if Str.nonempty fullRefFilePath
             && negb (truthy_opt (assoc fullRefFilePath (cache w)))
          then set_cache (assoc_put fullRefFilePath lv (cache w)) w
          else w in
        if Str.has_hash refVal then
          let refPath := nth 1 (Str.split "#" refVal) "" in
          let refNewVal := getRefPathValue (store w) lv refPath in
          (if truthy_opt refNewVal then refNewVal else None, w)
        else (Some lv, w)
      else (None, w)
  | None => (None, w)
  end.

Definition getRefSchema_file (refVal : string) (w : world) : option (option val * world) :=
  match file_value refVal w with
  | None => None
  | Some (loaderValue, w1) => Some (pick_value refVal (full_path refVal w) loaderValue w1)
  end.

Definition getRefSchema (refVal : string) (type : refType) (parent : val) (w : world)
  : option (option val * world) :=
  match type with
  | File => getRefSchema_file refVal w
  | Local => Some (getRefPathValue (store w) parent refVal, w)
  | Unsupported => Some (None, w)
  end.

(** [this.update(x, stopHere)]: write [x] where the node hangs; the root
    hangs nowhere. *)
Definition update (slot : option (nat * key)) (x : val) (h : heap) : heap :=
  match slot with
  | Some (a, k) => store_set h a k x
  | None => h
  end.

(** The callback of [traverse(schema).forEach] in [derefSchema]: the new
    value of the node, whether [traverse] goes on into it, and the world. *)
Definition visit (schema : val) (slot : option (nat * key)) (node : val) (w : world)
  : option (val * bool * world) :=
  match getRefValue (store w) node with
  | None => Some (node, true, w)
  | Some refVal =>
      let type := getRefType (store w) node in
      let '(addOk, s) := addToHistory (st w) type refVal in
      if negb addOk then
        let s := set_circular refVal s in
        let s := set_error (CircularRefsFound (circularRefs s)) s in
        Some (node, false, set_store (update slot node (store w)) (set_st s w))
      else
        let s := setCurrent s type refVal in
        match getRefSchema refVal type schema (set_st s w) with
        | None => None
        | Some (newValue, w) =>
            let w := set_st (history_pop (st w)) w in
            match newValue with
            | None =>
                let w :=
                  if Str.mem refVal (missing (st w)) then w
                  else set_st (set_missing (missing (st w) ++ [refVal]) (st w)) w in
                let w :=
                  if failOnMissing (opts w)
                  then set_st (set_error (MissingRef refVal) (st w)) w
                  else w in
                Some (node, negb (failOnMissing (opts w)),
                      set_store (update slot node (store w)) w)
            | Some newValue =>
                let w := set_store (update slot newValue (store w)) w in
                let w :=
                  if Str.mem refVal (missing (st w))
                  then set_st (set_missing (Str.remove_first refVal (missing (st w)))
                                 (st w)) w
                  else w in
                Some (newValue, true, w)
            end
        end
  end.

(** [traverse]'s walker under [forEach]: call the callback on the node,
    then walk the keys of what the node now is, reading each child when
    its turn comes. *)
Fixpoint walker (fuel : nat) (schema : val) (parents : list val)
    (slot : option (nat * key)) (node_ : val) (w : world) : option (val * world) :=
  match fuel with
  | 0 => None
  | S f =>
      let circ := is_circular parents node_ in
      let keys_before :=
        match node_ with
        | VPtr a => option_map objectKeys (store w !! a)
        | _ => None
        end in
      match visit schema slot node_ w with
      | None => None
      | Some (node, keepGoing, w) =>
          if negb keepGoing then Some (node, w)
          else
            match node with
            | VPtr a =>
                if circ then Some (node, w)
                else
                  let keys :=
                    match keys_before with
                    | Some ks => if val_eqb node_ node then Some ks
                                 else option_map objectKeys (store w !! a)
                    | None => option_map objectKeys (store w !! a)
                    end in
                  match keys with
                  | None => None
                  | Some keys =>
                      option_map (pair node)
                        ((fix go (keys : list key) (w : world) : option world :=
                            match keys with
                            | [] => Some w
                            | k :: r =>
                                match store w !! a with
                                | None => None
                                | Some c =>
                                    match cell_get c k with
                                    | None => None
                                    | Some child =>
                                        match walker f schema (parents ++ [node_])
                                                (Some (a, k)) child w with
                                        | Some (_, w') => go r w'
                                        | None => None
                                        end
                                    end
                                end
                            end) keys w)
                  end
            | _ => Some (node, w)
            end
      end
  end.

(** The body of [derefSchema]; an [Error] return is the value [VErr]. *)
Definition derefSchema_body (fuel : nat) (schema : val) (w : world)
  : option (val * world) :=
  match checkLocalCircular fuel (store w) schema with
  | None => None
  | Some (Some check) => Some (VErr check, w)
  | Some None =>
      if circular (st w) then Some (VErr (CircularRefsFound (circularRefs (st w))), w)
      else match error_ (st w) with
           | Some e => Some (VErr e, w)
           | None => walker fuel schema [] None schema w
           end
  end.

End Engine.

(** [derefSchema]: the recursion through [getRefSchema] and the depth of
    the walk share one [fuel]. *)
Fixpoint derefSchema (H : host) (fuel : nat) (schema : val) (w : world)
  : option (val * world) :=
  match fuel with
  | 0 => None
  | S f => derefSchema_body H (derefSchema H f) (S f) schema w
  end.

(** [_.defaults(options, defaults)] writes the missing options into the
    caller's object. *)
Definition defaults (H : host) (o : options) : options :=
  match baseFolder o with
  | Some _ => o
  | None => mkOptions (Some (process_cwd H)) (failOnMissing o)
  end.

(** What is left in the process between two calls: the module-level
    [cache] and the cells its entries point to. *)
Record process : Type := mkProcess {
  cache_var : list (string * val);
  cache_cells : heap
}.

(** What a call gives back: the returned value ([VErr] for an [Error]) and
    the world it leaves, whose options object is the caller's. *)
Record outcome : Type := mkOutcome {
  returned : val;
  after : world
}.

(** The world in which [deref] starts resolving, with the root of the
    clone.  The module-level [cache] is as the earlier calls left it until
    [cache = {}] runs; from then on nothing of an earlier call is reachable,
    so the call works in a store of its own. *)
Definition initial_world (H : host) (p : process) (schema : json) (o : options)
  : val * world :=
  let o := defaults H o in
  let bf := match baseFolder o with Some b => b | None => "" end in
  let cwd := if isAbsolute H bf then bf else path_resolve H (process_cwd H) bf in
  let s := mkState false [] cwd [] [] (fingerprint H schema) None in
  let '(baseSchema, h) := alloc schema [] in
  let w := mkWorld h (cache_var p) s o [] in
  (baseSchema, set_cache [] w).

(** [deref(schema, options)], called in the process state [p] that earlier
    calls left.  [JSON.stringify] cannot throw on a document of type
    [json]. *)
Definition deref (H : host) (fuel : nat) (p : process) (schema : json) (o : options)
  : option outcome :=
  let '(baseSchema, w) := initial_world H p schema o in
  match derefSchema H fuel baseSchema w with
  | None => None
  | Some (ret, w) =>
      match ret, error_ (st w) with
      | VErr _, _ => Some (mkOutcome ret w)
      | _, Some e => Some (mkOutcome (VErr e) w)
      | _, None => Some (mkOutcome ret w)
      end
  end.

Definition process_after (o : outcome) : process :=
  mkProcess (cache (after o)) (store (after o)).

(** The document a call returned, read back from its store. *)
Definition returned_doc (o : outcome) : option json :=
  reify (S (length (store (after o)))) (store (after o)) (returned o).

(** ** A POSIX host for the worked documents

    Paths as Node's [path] resolves them on POSIX; a reference string is a
    file reference unless it is empty or a URL; the fingerprint, which only
    labels the entries of [state.history], is a constant. *)

Module Posix.

Definition isAbsolute (p : string) : bool :=
  match p with
  | String c _ => Ascii.eqb c "/"
  | EmptyString => false
  end.

(** Segments of a path with [.] and empty segments dropped and [..]
    resolved, innermost first. *)
Fixpoint normalize (segs : list string) (acc : list string) : list string :=
  match segs with
  | [] => acc
  | s :: r =>
      if String.eqb s "" || String.eqb s "." then normalize r acc
      else if String.eqb s ".." then normalize r (tl acc)
      else normalize r (s :: acc)
  end.

(** [path.resolve(base, p)] for an absolute [base]. *)
Definition resolve (base p : string) : string :=
  let whole := if isAbsolute p then p else base +++ "/" +++ p in
  "/" +++ Str.join "/" (rev (normalize (Str.split "/" whole) [])).

(** [path.dirname(p)] *)
Definition dirname (p : string) : string :=
  match rev (Str.split "/" p) with
  | [] | [_] => "."
  | _ :: r =>
      let d := Str.join "/" (rev r) in
      if String.eqb d "" then "/" else d
  end.

(** Modelled from the spec: a file loader, here over a table of files by
    full path; the file of a reference is looked up from
    [options.baseFolder], a relative base folder from the working directory
    [/work]. *)
Definition loader (files : list (string * json)) (refVal : string) (o : options)
  : option json :=
  let base := match baseFolder o with Some b => b | None => "/work" end in
  let base := if isAbsolute base then base else resolve "/work" base in
  assoc (resolve base (getRefFilePath refVal)) files.

Definition host_of (files : list (string * json)) : host :=
  mkHost "/work" isAbsolute resolve dirname
         (fun s => Str.nonempty s && negb (Str.contains "://" s))
         (fun _ => "d41d8cd98f00b204e9800998ecf8427e")
         (loader files).

End Posix.

Definition no_options : options := mkOptions None false.
Definition strict_options : options := mkOptions None true.
Definition fresh_process : process := mkProcess [] [].

Definition ref (r : string) : json := JObj [("$ref", JStr r)].



(** ** Documents as trees, and their copies in the store *)

(** Nesting depth of a document. *)
Fixpoint depth (j : json) : nat :=
  match j with
  | JArr items => S (fold_right (fun x n => Nat.max (depth x) n) 0 items)
  | JObj fields => S (fold_right (fun p n => Nat.max (depth (snd p)) n) 0 fields)
  | _ => 0
  end.

(** The string-valued [$ref] of a node of a document. *)
Definition tree_ref (j : json) : option string :=
  match j with
  | JObj fields =>
      match assoc "$ref" fields with
      | Some (JStr s) => Some s
      | _ => None
      end
  | _ => None
  end.

(** [j[k]] on a document. *)
Definition child_of (j : json) (k : key) : option json :=
  match j, k with
  | JArr items, KIdx i => items !! i
  | JObj fields, KProp s => assoc s fields
  | _, _ => None
  end.

(** The keys [Object.keys] gives for a node of a document. *)
Definition tree_keys (j : json) : list key :=
  match j with
  | JArr items => map KIdx (seq 0 (length items))
  | JObj fields => map (fun p => KProp (fst p)) fields
  | _ => []
  end.

(** The node of a document at a tree path. *)
Fixpoint node_at (j : json) (path : list key) : option json :=
  match path with
  | [] => Some j
  | k :: rest =>
      match child_of j k with
      | Some c => node_at c rest
      | None => None
      end
  end.

(** The string-valued [$ref] of the node at a tree path. *)
Definition ref_string_at (j : json) (path : list key) : option string :=
  match node_at j path with
  | Some n => tree_ref n
  | None => None
  end.

(** The document has, at tree path [path], a reference node whose [$ref]
    is the string [r]. *)
Definition ref_at (j : json) (path : list key) (r : string) : Prop :=
  ref_string_at j path = Some r.

(** The document has, at tree path [path], a reference node whose [$ref]
    is the local reference string [r]. *)
Definition local_ref_at (j : json) (path : list key) (r : string) : Prop :=
  ref_at j path r /\ Str.starts_with_hash r = true.

(** Every reference node of the document carries the reference string
    [r]. *)
Fixpoint all_refs_carry (r : string) (j : json) : bool :=
  match tree_ref j with
  | Some r' => String.eqb r' r
  | None => true
  end
  && match j with
     | JArr items => forallb (all_refs_carry r) items
     | JObj fields => forallb (fun p => all_refs_carry r (snd p)) fields
     | _ => true
     end.

(** The [from] of the edge the static pass records for a node. *)
Definition path_string (path : list key) : string :=
  Str.join "/" (map key_string path).

(** The edge the static pass records for a node of a document, if any. *)
Definition tree_local (path : list key) (j : json) : list edge :=
  match tree_ref j with
  | Some r => if Str.starts_with_hash r then [mkEdge (path_string path) r] else []
  | None => []
  end.

Definition below (n : nat) (v : val) : Prop :=
  match v with
  | VPtr a => a < n
  | _ => True
  end.

(** [repr h v j]: in the store [h] the value [v] is a copy of the document
    [j], every cell pointing to older cells only. *)
Inductive repr (h : heap) : val -> json -> Prop :=
| repr_null : repr h VNull JNull
| repr_bool b : repr h (VBool b) (JBool b)
| repr_num n : repr h (VNum n) (JNum n)
| repr_str s : repr h (VStr s) (JStr s)
| repr_err e : repr h (VErr e) (JErr e)
| repr_arr a vs items :
    h !! a = Some (CArr vs) ->
    Forall2 (fun v j => below a v /\ repr h v j) vs items ->
    repr h (VPtr a) (JArr items)
| repr_obj a fs fields :
    h !! a = Some (CObj fs) ->
    Forall2 (fun p q => fst p = fst q /\ below a (snd p) /\ repr h (snd p) (snd q))
            fs fields ->
    repr h (VPtr a) (JObj fields).

(** The copies of the items of an array, as [clone] makes them. *)
Definition alloc_list : list json -> heap -> list val * heap :=
  fix go (l : list json) (h : heap) : list val * heap :=
    match l with
    | [] => ([], h)
    | x :: r =>
        let '(v, h1) := alloc x h in
        let '(vs, h2) := go r h1 in
        (v :: vs, h2)
    end.

Definition alloc_fields : list (string * json) -> heap -> list (string * val) * heap :=
  fix go (l : list (string * json)) (h : heap) : list (string * val) * heap :=
    match l with
    | [] => ([], h)
    | (k, x) :: r =>
        let '(v, h1) := alloc x h in
        let '(fs, h2) := go r h1 in
        ((k, v) :: fs, h2)
    end.

(** Modelled from the spec: one segment of a pointer applied to a node of
    a document, as [step_segment] applies it to a value of the store. *)
Definition tree_step (j : json) (seg : string) : option json :=
  match j with
  | JObj fields => assoc seg fields
  | JArr items =>
      match find (fun i => String.eqb (Str.of_nat i) seg) (seq 0 (length items)) with
      | Some i => items !! i
      | None => None
      end
  | _ => None
  end.

Fixpoint tree_walk (j : json) (segs : list string) : option json :=
  match segs with
  | [] => Some j
  | seg :: rest =>
      match tree_step j seg with
      | Some j' => tree_walk j' rest
      | None => None
      end
  end.

(** Modelled from the spec: the pointer path resolver on a document. *)
Definition resolve_pointer (d : json) (refPath : string) : option json :=
  tree_walk d (pointer_segments refPath).

(** [if (state.missing.indexOf(r) === -1) state.missing.push(r)] *)
Definition add_once (r : string) (m : list string) : list string :=
  if Str.mem r m then m else m ++ [r].

(** The state after the walk has met an unresolvable reference [r]. *)
Definition note_missing (b : bool) (r : string) (s : state) : state :=
  let s := set_missing (add_once r (missing s)) s in
  if b then set_error (MissingRef r) s else s.

Definition touch (b : bool) (r : string) (n : bool) (w : world) : world :=
  if n then set_st (note_missing b r (st w)) w else w.

(** The node hangs where the walker says it hangs. *)
Definition slot_holds (slot : option (nat * key)) (v : val) (h : heap) : Prop :=
  match slot with
  | None => True
  | Some (a, k) => exists c, h !! a = Some c /\ cell_get c k = Some v
  end.

(** Every parent on the walker's stack is a cell younger than [v]. *)
Definition parents_above (parents : list val) (v : val) : Prop :=
  Forall (fun p => match p with VPtr b => below b v | _ => True end) parents.

Definition extends (r1 r2 : val -> world -> option (val * world)) : Prop :=
  forall v w x, r1 v w = Some x -> r2 v w = Some x.


(** Two calls in a row: the second starts in the process the first left. *)
Definition deref_twice (H : host) (fuel : nat) (p : process)
    (d1 : json) (o1 : options) (d2 : json) (o2 : options) : option outcome :=
  match deref H fuel p d1 o1 with
  | Some out1 => deref H fuel (process_after out1) d2 o2
  | None => None
  end.

(** ** The worked documents *)

Definition missing_doc : json := ref "#/missing/path".

Definition two_cycle : json := JObj [("a", ref "#/b"); ("b", ref "#/a")].

(** A reference whose target is itself a reference node. *)
Definition chain_doc : json :=
  JObj [("a", ref "#/b"); ("b", ref "#/c"); ("c", JNum 1)].

(** A reference whose target holds a reference to a chain of reference
    nodes. *)
Definition deep_chain : json :=
  JObj [("p", ref "#/t"); ("t", JObj [("y", ref "#/u")]); ("u", ref "#/v");
        ("v", ref "#/w"); ("w", JNum 1)].

(** An unresolvable pointer whose path ends the path of its node. *)
Definition suffix_doc : json := JObj [("a", JObj [("b", ref "#/b")])].


(** A root that refers to a member which is an unresolvable reference. *)
Definition hidden_missing_doc : json :=
  JObj [("$ref", JStr "#/x"); ("x", ref "#/missing/path")].


(** An unresolvable reference followed by a resolvable one. *)
Definition missing_then_found : json :=
  JObj [("a", ref "#/zz"); ("b", ref "#/c"); ("c", JNum 1)].

(** Two references to one file. *)
Definition twice_doc : json := JObj [("a", ref "x.json"); ("b", ref "x.json#/k")].

Definition x_files : list (string * json) := [("/work/x.json", JObj [("k", JNum 7)])].

(** A file in a nested folder that refers to its neighbour. *)
Definition nested_doc : json := JObj [("a", ref "sub/x.json")].

Definition nested_files : list (string * json) :=
  [("/work/rel/sub/x.json", JObj [("k", ref "y.json")]);
   ("/work/rel/sub/y.json", JNum 5)].

(** Whatever a resolution does to the options object, [baseFolder] stays
    set. *)
Definition keeps_base (rec : val -> world -> option (val * world)) : Prop :=
  forall v w x w', baseFolder (opts w) <> None -> rec v w = Some (x, w') ->
                   baseFolder (opts w') <> None.

(** ** Further notions for the properties of the engine *)

(** Every reference node of the document carries a reference string that
    satisfies [P]. *)
Fixpoint every_ref (P : string -> bool) (j : json) : bool :=
  match tree_ref j with
  | Some r => P r
  | None => true
  end
  && match j with
     | JArr items => forallb (every_ref P) items
     | JObj fields => forallb (fun p => every_ref P (snd p)) fields
     | _ => true
     end.

(** The document has no reference node: no object has a string-valued
    [$ref]. *)
Definition no_reference (j : json) : bool := every_ref (fun _ => false) j.

(** The document has no local reference node. *)
Definition no_local_reference (j : json) : bool :=
  every_ref (fun r => negb (Str.starts_with_hash r)) j.

(** No edge of the graph is a loop or has its reverse in the graph. *)
Definition asym (g : dag) : Prop :=
  forall x y, In (x, y) g -> x <> y /\ ~ In (y, x) g.

(** A resolution respects [R] when the world it leaves is related by [R] to
    the world it was entered in. *)
Definition respects (R : world -> world -> Prop)
    (rec : val -> world -> option (val * world)) : Prop :=
  forall v w x w', rec v w = Some (x, w') -> R w w'.

(** The directory of a file reference, [''] for the current directory. *)
Definition ref_dirname (H : host) (refVal : string) : string :=
  let dirname := path_dirname H (getRefFilePath refVal) in
  if String.eqb dirname "." then "" else dirname.

(** The world in which the document of a file reference is resolved: the
    loader call is noted, the document is in the store, and for a file in
    another directory the base folder is that directory. *)
Definition file_entry (H : host) (refVal : string) (doc : json) (w : world) : world :=
  let w := add_load (mkLoad refVal (opts w) (full_path H refVal w)) w in
  let w := set_store (snd (alloc doc (store w))) w in
  if Str.nonempty (ref_dirname H refVal)
  then set_base (path_resolve H (cwd (st w)) (ref_dirname H refVal)) w
  else w.

(** The world after that resolution, which left [w2]: the base folder is
    again what [state.cwd] was in [w]. *)
Definition file_exit (H : host) (refVal : string) (w w2 : world) : world :=
  if Str.nonempty (ref_dirname H refVal) && Str.nonempty (cwd (st w))
  then set_base (cwd (st w)) w2
  else w2.

(** What the callback does once [getRefSchema] has returned [newValue] in
    the world [w]: the lines after [state.history.pop()]. *)
Definition visit_finish (slot : option (nat * key)) (node : val) (refVal : string)
    (newValue : option val) (w : world) : val * bool * world :=
  let w := set_st (history_pop (st w)) w in
  match newValue with
  | None =>
      let w :=
        if Str.mem refVal (missing (st w)) then w
        else set_st (set_missing (missing (st w) ++ [refVal]) (st w)) w in
      let w :=
        if failOnMissing (opts w)
        then set_st (set_error (MissingRef refVal) (st w)) w
        else w in
      (node, negb (failOnMissing (opts w)), set_store (update slot node (store w)) w)
  | Some newValue =>
      let w := set_store (update slot newValue (store w)) w in
      let w :=
        if Str.mem refVal (missing (st w))
        then set_st (set_missing (Str.remove_first refVal (missing (st w))) (st w)) w
        else w in
      (newValue, true, w)
  end.

(** The options object and the state agree on a base folder that is a
    non-empty string: [options.baseFolder === state.cwd], truthy. *)
Definition base_in_step (w : world) : Prop :=
  baseFolder (opts w) = Some (cwd (st w)) /\ Str.nonempty (cwd (st w)) = true.

(** From [w] to [w'] the options object keeps [failOnMissing], and, if its
    base folder was in step with the state, the whole of its contents, the
    state keeping its [cwd]. *)
Definition keeps_options (w w' : world) : Prop :=
  failOnMissing (opts w') = failOnMissing (opts w)
  /\ (base_in_step w -> opts w' = opts w /\ cwd (st w') = cwd (st w)).

(** From [w] to [w'] a recorded error stays recorded and the [circular]
    flag stays set; and if the flag was never set without an error, it still
    is not. *)
Definition keeps_failure (w w' : world) : Prop :=
  (error_ (st w) <> None -> error_ (st w') <> None)
  /\ (circular (st w) = true -> circular (st w') = true)
  /\ ((circular (st w) = true -> error_ (st w) <> None) ->
      circular (st w') = true -> error_ (st w') <> None).

(** A file that refers to itself, and a document that refers to it. *)
Definition loop_doc : json := JObj [("start", ref "a.json")].

Definition loop_files : list (string * json) :=
  [("/work/a.json", JObj [("next", ref "a.json")])].

(** What a file reference [r] selects in the document [doc] of its file:
    the document itself, or, when [r] has a [#], what the pointer after it
    leads to. *)
Definition file_target (r : string) (doc : json) : option json :=
  if Str.has_hash r then resolve_pointer doc (nth 1 (Str.split "#" r) "")
  else Some doc.
(** * Properties *)

(** ** More fuel never changes a result *)

Lemma scan_mono H f : forall f' h parents path node acc x,
  f <= f' ->
  scan H f h parents path node acc = Some x ->
  scan H f' h parents path node acc = Some x.
Proof.
  induction f as [|f IH]; intros f' h parents path node acc x Hle Hs; [discriminate|].
  destruct f' as [|f']; [lia|].
  simpl in *. destruct node; try exact Hs.
  destruct (is_circular parents (VPtr a)); [exact Hs|].
  destruct (h !! a) as [c|]; [|discriminate].
  revert Hs. generalize (collect_local H h path (VPtr a) acc).
  induction (objectKeys c) as [|k ks IHk]; intros acc0 Hs; [exact Hs|].
  destruct (cell_get c k) as [child|]; [|discriminate].
  destruct (scan H f h (parents ++ [VPtr a]) (path ++ [k]) child acc0) as [acc'|] eqn:E;
    [|discriminate].
  rewrite (IH f' _ _ _ _ _ _ ltac:(lia) E). apply IHk, Hs.
Qed.

Lemma file_value_mono H r1 r2 refVal w x :
  extends r1 r2 ->
  file_value H r1 refVal w = Some x ->
  file_value H r2 refVal w = Some x.
Proof.
  intros Hext. unfold file_value.
  destruct (truthy_opt (assoc _ (cache w))); [exact id|].
  destruct (fileLoader H refVal _) as [doc|]; [|exact id].
  destruct (alloc doc _) as [lv h].
  destruct (truthy lv); [|exact id].
  match goal with
  | |- context [r1 ?v ?w'] => destruct (r1 v w') as [[lv' w'']|] eqn:E
  end; [|discriminate].
  rewrite (Hext _ _ _ E). exact id.
Qed.

Lemma getRefSchema_file_mono H r1 r2 refVal w x :
  extends r1 r2 ->
  getRefSchema_file H r1 refVal w = Some x ->
  getRefSchema_file H r2 refVal w = Some x.
Proof.
  intros Hext. unfold getRefSchema_file.
  destruct (file_value H r1 refVal w) as [[lv w1]|] eqn:E; [|discriminate].
  rewrite (file_value_mono _ _ _ _ _ _ Hext E). exact id.
Qed.

Lemma visit_mono H r1 r2 schema slot node w x :
  extends r1 r2 ->
  visit H r1 schema slot node w = Some x ->
  visit H r2 schema slot node w = Some x.
Proof.
  intros Hext. unfold visit.
  destruct (getRefValue (store w) node) as [refVal|]; [|exact id].
  destruct (addToHistory _ _ refVal) as [addOk s].
  destruct (negb addOk); [exact id|].
  unfold getRefSchema.
  destruct (getRefType H (store w) node); try exact id.
  match goal with
  | |- context [getRefSchema_file H r1 ?a ?b] =>
      destruct (getRefSchema_file H r1 a b) as [[nv w']|] eqn:E
  end; [|discriminate].
  rewrite (getRefSchema_file_mono _ _ _ _ _ _ Hext E). exact id.
Qed.

Lemma walker_mono H r1 r2 (Hext : extends r1 r2) f :
  forall f' schema parents slot node w x,
  f <= f' ->
  walker H r1 f schema parents slot node w = Some x ->
  walker H r2 f' schema parents slot node w = Some x.
Proof.
  induction f as [|f IH]; intros f' schema parents slot node w x Hle Hw; [discriminate|].
  destruct f' as [|f']; [lia|].
  simpl in *.
  destruct (visit H r1 schema slot node w) as [[[nd kg] w1]|] eqn:E; [|discriminate].
  rewrite (visit_mono _ _ _ _ _ _ _ _ Hext E).
  destruct (negb kg); [exact Hw|].
  destruct nd; try exact Hw.
  destruct (is_circular parents node); [exact Hw|].
  match type of Hw with
  | option_map _ (match ?ks with _ => _ end) = _ => destruct ks as [keys|]
  | match ?ks with _ => _ end = _ => destruct ks as [keys|]
  end; [|discriminate].
  revert Hw. clear E. generalize w1.
  induction keys as [|k ks IHk]; intros w0 Hw; [exact Hw|].
  destruct (store w0 !! a) as [c|]; [|discriminate].
  destruct (cell_get c k) as [child|]; [|discriminate].
  destruct (walker H r1 f schema (parents ++ [node]) (Some (a, k)) child w0)
    as [[v' w']|] eqn:E; [|discriminate].
  rewrite (IH f' _ _ _ _ _ _ ltac:(lia) E). apply IHk, Hw.
Qed.

Lemma derefSchema_S H f schema w :
  derefSchema H (S f) schema w = derefSchema_body H (derefSchema H f) (S f) schema w.
Proof. reflexivity. Qed.

Lemma derefSchema_mono H f : forall f' schema w x,
  f <= f' ->
  derefSchema H f schema w = Some x ->
  derefSchema H f' schema w = Some x.
Proof.
  induction f as [|f IH]; intros f' schema w x Hle Hd; [discriminate|].
  destruct f' as [|f']; [lia|].
  rewrite derefSchema_S in *. unfold derefSchema_body, checkLocalCircular in *.
  destruct (scan H (S f) (store w) [] [] schema []) as [locals|] eqn:E; [|discriminate].
  rewrite (scan_mono H (S f) (S f') _ _ _ _ _ _ ltac:(lia) E).
  cbn [option_map] in *. destruct (check_locals locals); [exact Hd|].
  destruct (circular (st w)); [exact Hd|].
  destruct (error_ (st w)); [exact Hd|].
  apply (walker_mono H (derefSchema H f) (derefSchema H f')) with (f := S f);
    [|lia|exact Hd].
  intros v w' y Hy. apply (IH f'); [lia|exact Hy].
Qed.

Lemma deref_mono H f f' p schema o out :
  f <= f' ->
  deref H f p schema o = Some out ->
  deref H f' p schema o = Some out.
Proof.
  intros Hle. unfold deref.
  destruct (initial_world H p schema o) as [v w0].
  match goal with
  | |- context [derefSchema H f ?a ?b] =>
      destruct (derefSchema H f a b) as [[r w]|] eqn:E
  end; [|discriminate].
  rewrite (derefSchema_mono H f f' _ _ _ Hle E). exact id.
Qed.

(** ** Copies of documents in the store *)

Lemma json_nested_ind (P : json -> Prop) :
  P JNull -> (forall b, P (JBool b)) -> (forall n, P (JNum n)) ->
  (forall s, P (JStr s)) -> (forall e, P (JErr e)) ->
  (forall items, Forall P items -> P (JArr items)) ->
  (forall fields, Forall (fun p => P (snd p)) fields -> P (JObj fields)) ->
  forall j, P j.
Proof.
  intros Hnull Hbool Hnum Hstr Herr Harr Hobj.
  fix IH 1. intros [| | | |items|fields|].
  - exact Hnull.
  - apply Hbool.
  - apply Hnum.
  - apply Hstr.
  - apply Harr. induction items as [|x r IHr]; constructor; [apply IH|exact IHr].
  - apply Hobj. induction fields as [|[k x] r IHr]; constructor; [apply IH|exact IHr].
  - apply Herr.
Qed.

Lemma alloc_JArr items h :
  alloc (JArr items) h
  = let '(vs, h1) := alloc_list items h in (VPtr (length h1), h1 ++ [CArr vs]).
Proof. reflexivity. Qed.

Lemma alloc_JObj fields h :
  alloc (JObj fields) h
  = let '(fs, h1) := alloc_fields fields h in (VPtr (length h1), h1 ++ [CObj fs]).
Proof. reflexivity. Qed.

Lemma below_mono n m v : n <= m -> below n v -> below m v.
Proof. destruct v; simpl; auto; lia. Qed.

Lemma Forall2_Forall_impl {A B : Type} (P : B -> Prop) (R R' : A -> B -> Prop) l l' :
  Forall P l' -> Forall2 R l l' ->
  (forall x y, P y -> R x y -> R' x y) ->
  Forall2 R' l l'.
Proof.
  intros HP HR Himp. revert HP.
  induction HR as [|x y l l' Hxy _ IH]; intros HP; constructor;
    inversion HP; subst; auto.
Qed.

Lemma repr_ext h ext : forall j v, repr h v j -> repr (h ++ ext) v j.
Proof.
  induction j as [| | | | |items IH|fields IH] using json_nested_ind;
    intros v Hr; inversion Hr; subst; try constructor.
  - eapply repr_arr; [by apply lookup_app_l_Some|].
    eapply Forall2_Forall_impl; [exact IH|eassumption|].
    intros x y Hy [Hb Hx]. split; auto.
  - eapply repr_obj; [by apply lookup_app_l_Some|].
    eapply Forall2_Forall_impl; [exact IH|eassumption|].
    intros x y Hy (Hk & Hb & Hx). repeat split; auto.
Qed.

(** [clone] only adds cells, and what it returns is a copy. *)
Lemma alloc_repr : forall j h,
  exists new, snd (alloc j h) = h ++ new
    /\ repr (h ++ new) (fst (alloc j h)) j
    /\ below (length (h ++ new)) (fst (alloc j h)).
Proof.
  induction j as [| | | | |items IH|fields IH] using json_nested_ind; intros h;
    try (exists []; rewrite app_nil_r; simpl; repeat split; constructor).
  - assert (Hl : exists new, snd (alloc_list items h) = h ++ new
        /\ Forall2 (fun v j => below (length (h ++ new)) v /\ repr (h ++ new) v j)
                   (fst (alloc_list items h)) items).
    { clear -IH. revert h. induction IH as [|x r Hx _ IHr]; intros h.
      - exists []. rewrite app_nil_r. split; [reflexivity|constructor].
      - simpl. destruct (Hx h) as (n1 & E1 & R1 & B1).
        destruct (alloc x h) as [v h1]. simpl in *. subst h1.
        destruct (IHr (h ++ n1)) as (n2 & E2 & F2).
        destruct (alloc_list r (h ++ n1)) as [vs h2]. simpl in *. subst h2.
        exists (n1 ++ n2). rewrite app_assoc. split; [reflexivity|].
        constructor; [|exact F2]. split.
        + eapply below_mono; [|exact B1]. rewrite !length_app. lia.
        + by apply repr_ext. }
    destruct Hl as (new & E & F). rewrite alloc_JArr.
    destruct (alloc_list items h) as [vs h1]. simpl in *. subst h1.
    exists (new ++ [CArr vs]). rewrite app_assoc. split; [reflexivity|]. split.
    + eapply repr_arr.
      * by apply list_lookup_middle.
      * eapply Forall2_impl; [exact F|]. intros v j [B R]. split; [exact B|].
        by apply repr_ext.
    + simpl. rewrite !length_app. simpl. lia.
  - assert (Hl : exists new, snd (alloc_fields fields h) = h ++ new
        /\ Forall2 (fun p q => fst p = fst q /\ below (length (h ++ new)) (snd p)
                               /\ repr (h ++ new) (snd p) (snd q))
                   (fst (alloc_fields fields h)) fields).
    { clear -IH. revert h. induction IH as [|[k x] r Hx _ IHr]; intros h.
      - exists []. rewrite app_nil_r. split; [reflexivity|constructor].
      - simpl in *. destruct (Hx h) as (n1 & E1 & R1 & B1).
        destruct (alloc x h) as [v h1]. simpl in *. subst h1.
        destruct (IHr (h ++ n1)) as (n2 & E2 & F2).
        destruct (alloc_fields r (h ++ n1)) as [vs h2]. simpl in *. subst h2.
        exists (n1 ++ n2). rewrite app_assoc. split; [reflexivity|].
        constructor; [|exact F2]. simpl. split; [reflexivity|]. split.
        + eapply below_mono; [|exact B1]. rewrite !length_app. lia.
        + by apply repr_ext. }
    destruct Hl as (new & E & F). rewrite alloc_JObj.
    destruct (alloc_fields fields h) as [fs h1]. simpl in *. subst h1.
    exists (new ++ [CObj fs]). rewrite app_assoc. split; [reflexivity|]. split.
    + eapply repr_obj.
      * by apply list_lookup_middle.
      * eapply Forall2_impl; [exact F|]. intros p q (Ek & B & R).
        split; [exact Ek|]. split; [exact B|]. by apply repr_ext.
    + simpl. rewrite !length_app. simpl. lia.
Qed.

Lemma assoc_Forall2 {A B : Type} (R : A -> B -> Prop) k fs fields :
  Forall2 (fun p q => fst p = fst q /\ R (snd p) (snd q)) fs fields ->
  match @assoc A k fs, @assoc B k fields with
  | Some v, Some j => R v j
  | None, None => True
  | _, _ => False
  end.
Proof.
  induction 1 as [|[k1 v] [k2 j] fs fields [Hk HR] _ IH]; simpl in *; [exact I|].
  subst k2. destruct (String.eqb k k1); [exact HR|exact IH].
Qed.

Lemma assoc_In_keys {A : Type} k (l : list (string * A)) :
  In k (map fst l) <-> exists x, assoc k l = Some x.
Proof.
  induction l as [|[k1 x] l IH]; simpl.
  - split; [tauto|intros [? ?]; discriminate].
  - destruct (String.eqb_spec k k1) as [->|Hne].
    + split; eauto.
    + rewrite <- IH. split; [intros [?|?]; congruence || auto|auto].
Qed.

Lemma In_map_KProp {A : Type} k (l : list (string * A)) :
  In (KProp k) (map (fun p => KProp (fst p)) l) <-> In k (map fst l).
Proof.
  rewrite !in_map_iff. split; intros [p [E Hin]]; exists p; split; auto; congruence.
Qed.

Lemma In_map_KIdx i n : In (KIdx i) (map KIdx (seq 0 n)) <-> i < n.
Proof.
  rewrite in_map_iff. split.
  - intros [x [E Hin]]. inversion E; subst. apply in_seq in Hin. lia.
  - intros Hlt. exists i. split; [reflexivity|]. apply in_seq. lia.
Qed.

(** A copied cell has the keys of the node it copies, and its children
    are copies of the node's children. *)
Lemma repr_cell h a j c :
  repr h (VPtr a) j -> h !! a = Some c ->
  objectKeys c = tree_keys j
  /\ forall k, In k (tree_keys j) ->
       exists v jk, cell_get c k = Some v /\ child_of j k = Some jk
                    /\ below a v /\ repr h v jk.
Proof.
  intros Hr Hc. inversion Hr as [| | | | |a' vs items Ha F|a' fs fields Ha F]; subst;
    rewrite Hc in Ha; inversion Ha; subst; simpl.
  - split; [by rewrite (Forall2_length _ _ _ F)|].
    intros [s|i] Hin; [apply in_map_iff in Hin as [? [? ?]]; discriminate|].
    apply In_map_KIdx in Hin.
    destruct (lookup_lt_is_Some_2 items i Hin) as [jk Hj].
    destruct (Forall2_lookup_r _ _ _ _ _ F Hj) as (v & Hv & B & R).
    exists v, jk. auto.
  - split.
    { clear -F. induction F as [|[k1 v] [k2 jx] ? ? [Hk _] _ IH]; simpl in *;
        [reflexivity|]. by rewrite Hk, IH. }
    intros [s|i] Hin; [|apply in_map_iff in Hin as [? [? ?]]; discriminate].
    apply In_map_KProp, assoc_In_keys in Hin as [jk Hj].
    pose proof (assoc_Forall2 (fun v j => below a v /\ repr h v j) s fs fields F) as HA.
    rewrite Hj in HA. destruct (assoc s fs) as [v|]; [|contradiction].
    exists v, jk. destruct HA. auto.
Qed.

Lemma child_in_keys j k jk : child_of j k = Some jk -> In k (tree_keys j).
Proof.
  destruct j, k; simpl; try discriminate; intros Hc.
  - apply In_map_KIdx. by eapply lookup_lt_Some.
  - apply In_map_KProp, assoc_In_keys. eauto.
Qed.

Lemma fold_max_le {A : Type} (f : A -> nat) (l : list A) x :
  In x l -> f x <= fold_right (fun y n => Nat.max (f y) n) 0 l.
Proof.
  induction l as [|y l IH]; simpl; [tauto|]. intros [->|Hin]; [lia|].
  specialize (IH Hin). lia.
Qed.

Lemma assoc_In {A : Type} k (l : list (string * A)) x :
  assoc k l = Some x -> In (k, x) l.
Proof.
  induction l as [|[k1 y] l IH]; simpl; [discriminate|].
  destruct (String.eqb_spec k k1) as [->|Hne]; [intros [= ->]; auto|auto].
Qed.

Lemma depth_child j k jk : child_of j k = Some jk -> depth jk < depth j.
Proof.
  destruct j, k; simpl; try discriminate; intros Hc.
  - apply list_elem_of_lookup_2, list_elem_of_In in Hc.
    pose proof (fold_max_le depth items jk Hc). lia.
  - apply assoc_In in Hc.
    pose proof (fold_max_le (fun p => depth (snd p)) fields (k, jk) Hc). simpl in *. lia.
Qed.

Lemma no_ref_key_child j k jk :
  no_ref_key j = true -> child_of j k = Some jk -> no_ref_key jk = true.
Proof.
  destruct j, k; simpl; try discriminate; intros Hn Hc.
  - apply list_elem_of_lookup_2, list_elem_of_In in Hc.
    rewrite forallb_forall in Hn. auto.
  - apply assoc_In in Hc. apply andb_true_iff in Hn as [_ Hn].
    rewrite forallb_forall in Hn. apply (Hn _ Hc).
Qed.

Lemma no_ref_key_tree_ref j : no_ref_key j = true -> tree_ref j = None.
Proof.
  destruct j; simpl; try reflexivity. intros Hn.
  apply andb_true_iff in Hn as [Hn _]. apply negb_true_iff in Hn.
  destruct (assoc "$ref" fields) as [x|] eqn:E; [|reflexivity].
  apply assoc_In in E. exfalso.
  assert (Ht : existsb (fun p : string * json => String.eqb (fst p) "$ref") fields = true).
  { apply existsb_exists. exists ("$ref", x). split; [exact E|reflexivity]. }
  congruence.
Qed.

(** The engine's test for a reference node reads the same on a copy. *)
Lemma getRefValue_repr h v j : repr h v j -> getRefValue h v = tree_ref j.
Proof.
  intros Hr. inversion Hr as [| | | | |a vs items Ha F|a fs fields Ha F]; subst;
    simpl; try reflexivity; rewrite Ha; [reflexivity|].
  pose proof (assoc_Forall2 (fun v j => below a v /\ repr h v j) "$ref" fs fields F) as HA.
  destruct (assoc "$ref" fs) as [vx|], (assoc "$ref" fields) as [jx|];
    try contradiction; [|reflexivity].
  destruct HA as [_ Hx]. inversion Hx; subst; reflexivity.
Qed.

Lemma repr_depth h : forall j v,
  repr h v j -> match v with VPtr a => depth j <= S a | _ => depth j = 0 end.
Proof.
  induction j as [| | | | |items IH|fields IH] using json_nested_ind;
    intros v Hr; inversion Hr as [| | | | |a vs its Ha F|a fs fds Ha F]; subst;
    simpl; try reflexivity; apply le_n_S.
  - clear Ha Hr. revert IH. induction F as [|x y vs' its' [B R] _ IHF]; intros IH;
      simpl; [lia|]. inversion IH as [|? ? Hy Hys]; subst.
    specialize (IHF Hys). specialize (Hy _ R). destruct x; simpl in *; lia.
  - clear Ha Hr. revert IH. induction F as [|x y fs' fds' (_ & B & R) _ IHF]; intros IH;
      simpl; [lia|]. inversion IH as [|? ? Hy Hys]; subst.
    specialize (IHF Hys). specialize (Hy _ R). destruct (snd x); simpl in *; lia.
Qed.

(** Reading a copy back gives the document. *)
Lemma reify_repr h : forall j fuel v,
  repr h v j -> depth j <= fuel -> reify fuel h v = Some j.
Proof.
  induction j as [| | | | |items IH|fields IH] using json_nested_ind;
    intros fuel v Hr Hd; inversion Hr as [| | | | |a vs its Ha F|a fs fds Ha F]; subst;
    try (destruct fuel; reflexivity);
    (destruct fuel as [|f]; [simpl in Hd; lia|]); simpl in *; rewrite Ha;
    apply le_S_n in Hd.
  - clear Ha Hr. revert IH Hd. induction F as [|x y vs' its' [B R] _ IHF]; intros IH Hd;
      simpl; [reflexivity|]. inversion IH as [|? ? Hy Hys]; subst. simpl in Hd.
    rewrite (Hy f x R) by lia. specialize (IHF Hys ltac:(lia)).
    simpl in IHF. destruct (_ vs') as [js|] in IHF |- *; [|discriminate].
    inversion IHF; subst. reflexivity.
  - clear Ha Hr. revert IH Hd.
    induction F as [|[k x] [k' y] fs' fds' (Hk & B & R) _ IHF]; intros IH Hd;
      simpl in *; [reflexivity|]. subst k'. inversion IH as [|? ? Hy Hys]; subst.
    simpl in Hy. rewrite (Hy f x R) by lia. specialize (IHF Hys ltac:(lia)).
    simpl in IHF. destruct (_ fs') as [js|] in IHF |- *; [|discriminate].
    inversion IHF; subst. reflexivity.
Qed.

(** ** The static pass on a copied document *)

Lemma collect_local_repr H h path v j acc :
  repr h v j -> collect_local H h path v acc = acc ++ tree_local path j.
Proof.
  intros Hr. unfold collect_local, getRefType, tree_local, path_string.
  rewrite (getRefValue_repr _ _ _ Hr).
  destruct (tree_ref j) as [r|]; [|by rewrite app_nil_r].
  destruct (Str.starts_with_hash r) eqn:E.
  - destruct r; [discriminate|reflexivity].
  - destruct (is_file_ref H r); by rewrite app_nil_r.
Qed.

Lemma ref_at_nil j r : ref_at j [] r <-> tree_ref j = Some r.
Proof. reflexivity. Qed.

Lemma ref_at_cons j k q r :
  ref_at j (k :: q) r <-> exists jk, child_of j k = Some jk /\ ref_at jk q r.
Proof.
  unfold ref_at, ref_string_at. simpl. destruct (child_of j k) as [jk|].
  - split; [intros ?; eauto|intros (jk' & [= <-] & ?); auto].
  - split; [discriminate|intros (? & ? & _); discriminate].
Qed.

Lemma local_ref_at_nil j r :
  local_ref_at j [] r <-> tree_ref j = Some r /\ Str.starts_with_hash r = true.
Proof. unfold local_ref_at. by rewrite ref_at_nil. Qed.

Lemma local_ref_at_cons j k q r :
  local_ref_at j (k :: q) r
  <-> exists jk, child_of j k = Some jk /\ local_ref_at jk q r.
Proof.
  unfold local_ref_at. rewrite ref_at_cons. split.
  - intros [(jk & Hc & Hq) Hh]. eauto.
  - intros (jk & Hc & Hq & Hh). eauto.
Qed.

Lemma In_tree_local path j e :
  In e (tree_local path j)
  <-> exists r, local_ref_at j [] r /\ e = mkEdge (path_string (path ++ [])) r.
Proof.
  rewrite app_nil_r. unfold tree_local. split.
  - destruct (tree_ref j) as [r|] eqn:Et; [|intros []].
    destruct (Str.starts_with_hash r) eqn:Eh; [|intros []].
    intros [<-|[]]. exists r. rewrite local_ref_at_nil. auto.
  - intros (r & Hl & ->). apply local_ref_at_nil in Hl as [-> ->]. by left.
Qed.

Lemma parents_above_child parents a v :
  parents_above parents (VPtr a) -> below a v -> parents_above (parents ++ [VPtr a]) v.
Proof.
  intros Hp Hb. apply Forall_app. split.
  - eapply Forall_impl; [exact Hp|]. intros [| | | | |b]; simpl; auto.
    intros Hab. destruct v; simpl in *; auto. lia.
  - constructor; [exact Hb|constructor].
Qed.

Lemma parents_above_not_circular parents a :
  parents_above parents (VPtr a) -> is_circular parents (VPtr a) = false.
Proof.
  intros Hp. unfold is_circular. apply not_true_is_false. intros Hex.
  apply existsb_exists in Hex as (p & Hin & Heq).
  unfold parents_above in Hp. rewrite List.Forall_forall in Hp. specialize (Hp p Hin).
  destruct p; simpl in *; try discriminate.
  apply Nat.eqb_eq in Heq. lia.
Qed.

(** On a copy of a document the scan ends and records exactly the local
    reference nodes of the document, each under its tree path. *)
Lemma scan_repr H : forall fuel h parents path v j acc,
  repr h v j -> depth j < fuel -> parents_above parents v ->
  exists l, scan H fuel h parents path v acc = Some (acc ++ l)
    /\ forall e, In e l <->
         exists q r, local_ref_at j q r /\ e = mkEdge (path_string (path ++ q)) r.
Proof.
  induction fuel as [|f IH]; intros h parents path v j acc Hr Hd Hp; [lia|].
  simpl. rewrite (collect_local_repr H h path v j acc Hr).
  assert (Hleaf : (forall k, child_of j k = None) ->
    forall e, In e (tree_local path j) <->
      exists q r, local_ref_at j q r /\ e = mkEdge (path_string (path ++ q)) r).
  { intros Hnc e. rewrite In_tree_local. split.
    - intros (r & ? & ?). exists [], r. auto.
    - intros ([|k q] & r & Hl & He); [eauto|].
      apply local_ref_at_cons in Hl as (jk & Hc & _). rewrite Hnc in Hc. discriminate. }
  destruct v as [| | | | |a];
    try (exists (tree_local path j); split; [reflexivity|];
         apply Hleaf; intros k; inversion Hr; subst; reflexivity).
  rewrite (parents_above_not_circular _ _ Hp).
  assert (Hc : exists c, h !! a = Some c) by (inversion Hr; subst; eauto).
  destruct Hc as [c Hc]. rewrite Hc.
  destruct (repr_cell h a j c Hr Hc) as [Hkeys Hchild]. rewrite Hkeys.
  assert (Hloop : forall ks acc0, (forall k, In k ks -> In k (tree_keys j)) ->
    exists l', (fix go (keys : list key) (acc : list edge) : option (list edge) :=
        match keys with
        | [] => Some acc
        | k :: r =>
            match cell_get c k with
            | None => None
            | Some child =>
                match scan H f h (parents ++ [VPtr a]) (path ++ [k]) child acc with
                | Some acc' => go r acc'
                | None => None
                end
            end
        end) ks acc0 = Some (acc0 ++ l')
      /\ forall e, In e l' <->
           exists k jk q r, In k ks /\ child_of j k = Some jk /\ local_ref_at jk q r
                            /\ e = mkEdge (path_string ((path ++ [k]) ++ q)) r).
  { induction ks as [|k ks IHk]; intros acc0 Hin.
    - exists []. rewrite app_nil_r. split; [reflexivity|].
      intros e. split; [intros []|intros (? & ? & ? & ? & [] & _)].
    - destruct (Hchild k (Hin k (or_introl eq_refl))) as (child & jk & Hg & Hck & Hb & Hrk).
      rewrite Hg.
      destruct (IH h (parents ++ [VPtr a]) (path ++ [k]) child jk acc0 Hrk)
        as (l1 & Hs1 & Hm1).
      { pose proof (depth_child _ _ _ Hck). lia. }
      { by apply parents_above_child. }
      rewrite Hs1.
      destruct (IHk (acc0 ++ l1)) as (l2 & Hs2 & Hm2); [intros; apply Hin; by right|].
      rewrite Hs2. exists (l1 ++ l2). rewrite app_assoc. split; [reflexivity|].
      intros e. rewrite in_app_iff, Hm1, Hm2. split.
      + intros [(q & r & Hl & He)|(k' & jk' & q & r & Hk' & Hc' & Hl & He)].
        * exists k, jk, q, r. split; [by left|auto].
        * exists k', jk', q, r. split; [by right|auto].
      + intros (k' & jk' & q & r & [<-|Hk'] & Hc' & Hl & He).
        * left. rewrite Hck in Hc'. inversion Hc'; subst. eauto.
        * right. exists k', jk', q, r. auto. }
  destruct (Hloop (tree_keys j) (acc ++ tree_local path j)) as (l' & Hs & Hm); [auto|].
  rewrite Hs. exists (tree_local path j ++ l'). rewrite app_assoc. split; [reflexivity|].
  intros e. rewrite in_app_iff, In_tree_local, Hm. split.
  - intros [(r & Hl & He)|(k & jk & q & r & Hk & Hck & Hl & He)].
    + exists [], r. auto.
    + exists (k :: q), r. rewrite local_ref_at_cons. rewrite <- app_assoc in He. eauto.
  - intros ([|k q] & r & Hl & He).
    + left. eauto.
    + right. apply local_ref_at_cons in Hl as (jk & Hck & Hl).
      exists k, jk, q, r. rewrite <- app_assoc.
      split; [by eapply child_in_keys|auto].
Qed.

(** ** Documents without references *)

Lemma visit_plain H rec schema slot v w j :
  repr (store w) v j -> tree_ref j = None ->
  visit H rec schema slot v w = Some (v, true, w).
Proof.
  intros Hr Ht. unfold visit. by rewrite (getRefValue_repr _ _ _ Hr), Ht.
Qed.

(** The walk changes nothing below a node under which no object has a
    [$ref] key. *)
Lemma walker_plain H rec : forall fuel schema parents slot v j w,
  repr (store w) v j -> no_ref_key j = true -> depth j < fuel ->
  walker H rec fuel schema parents slot v w = Some (v, w).
Proof.
  induction fuel as [|f IH]; intros schema parents slot v j w Hr Hn Hd; [lia|].
  simpl. rewrite (visit_plain H rec schema slot v w j Hr (no_ref_key_tree_ref j Hn)).
  simpl. destruct v as [| | | | |a]; try reflexivity.
  destruct (is_circular parents (VPtr a)); [reflexivity|].
  assert (Hc : exists c, store w !! a = Some c) by (inversion Hr; subst; eauto).
  destruct Hc as [c Hc]. rewrite Hc. simpl. rewrite Nat.eqb_refl.
  destruct (repr_cell _ a j c Hr Hc) as [Hkeys Hchild]. rewrite Hkeys.
  assert (Hloop : forall ks, (forall k, In k ks -> In k (tree_keys j)) ->
    (fix go (keys : list key) (w : world) : option world :=
       match keys with
       | [] => Some w
       | k :: r =>
           match store w !! a with
           | None => None
           | Some c =>
               match cell_get c k with
               | None => None
               | Some child =>
                   match walker H rec f schema (parents ++ [VPtr a]) (Some (a, k)) child w with
                   | Some (_, w') => go r w'
                   | None => None
                   end
               end
           end
       end) ks w = Some w).
  { induction ks as [|k ks IHk]; intros Hin; [reflexivity|].
    rewrite Hc.
    destruct (Hchild k (Hin k (or_introl eq_refl))) as (child & jk & Hg & Hck & _ & Hrk).
    rewrite Hg. rewrite (IH schema _ _ child jk w Hrk).
    - apply IHk. intros; apply Hin; by right.
    - by eapply no_ref_key_child.
    - pose proof (depth_child _ _ _ Hck). lia. }
  rewrite Hloop by auto. reflexivity.
Qed.

Lemma no_ref_key_node_at : forall q j n,
  no_ref_key j = true -> node_at j q = Some n -> no_ref_key n = true.
Proof.
  induction q as [|k q IH]; simpl; intros j n Hn Hq; [by inversion Hq; subst|].
  destruct (child_of j k) as [jk|] eqn:E; [|discriminate].
  eapply IH; [|exact Hq]. by eapply no_ref_key_child.
Qed.

Lemma no_ref_key_no_local j q r : no_ref_key j = true -> ~ local_ref_at j q r.
Proof.
  intros Hn [Hq _]. unfold ref_at, ref_string_at in Hq.
  destruct (node_at j q) as [n|] eqn:E; [|discriminate].
  rewrite (no_ref_key_tree_ref n (no_ref_key_node_at q j n Hn E)) in Hq. discriminate.
Qed.

(** What [checkLocalCircular] collects on the clone of a document. *)
Lemma checkLocalCircular_alloc H fuel h v j :
  repr h v j -> depth j < fuel ->
  exists locals, checkLocalCircular H fuel h v = Some (check_locals locals)
    /\ forall e, In e locals <->
         exists q r, local_ref_at j q r /\ e = mkEdge (path_string q) r.
Proof.
  intros Hr Hd. unfold checkLocalCircular.
  destruct (scan_repr H fuel h [] [] v j [] Hr Hd) as (l & Hs & Hm); [constructor|].
  rewrite Hs. simpl. eauto.
Qed.

Lemma repr_reify_bound h v j :
  repr h v j -> below (length h) v -> depth j <= S (length h).
Proof.
  intros Hr Hb. pose proof (repr_depth h j v Hr) as Hd.
  destruct v; simpl in *; lia.
Qed.

(** ** The cycle tests of the static pass *)



(** ** The options object and the cache across a call *)




Lemma file_value_keeps_base H rec refVal w lv w' :
  keeps_base rec ->
  baseFolder (opts w) <> None ->
  file_value H rec refVal w = Some (lv, w') ->
  baseFolder (opts w') <> None.
Proof.
  intros Hrec Hb. unfold file_value.
  destruct (truthy_opt (assoc _ (cache w))); [by intros [= _ <-]|].
  destruct (fileLoader H refVal _) as [doc|]; [|by intros [= _ <-]].
  destruct (alloc doc _) as [v h].
  destruct (truthy v); [|by intros [= _ <-]].
  match goal with
  | |- context [rec ?v ?w1] => destruct (rec v w1) as [[lv' w2]|] eqn:E
  end; [|discriminate].
  intros [= _ <-]. apply Hrec in E.
  - destruct (Str.nonempty (if String.eqb _ _ then _ else _)); [|exact E].
    destruct (Str.nonempty _); [discriminate|exact E].
  - destruct (Str.nonempty (if String.eqb _ _ then _ else _)); [discriminate|exact Hb].
Qed.

Lemma pick_value_opts refVal full lv w : opts (snd (pick_value refVal full lv w)) = opts w.
Proof.
  unfold pick_value. destruct lv as [lv|]; [|reflexivity].
  destruct (truthy lv); [|reflexivity]. cbn zeta.
  destruct (Str.nonempty full && _), (Str.has_hash refVal); reflexivity.
Qed.

Lemma getRefSchema_file_keeps_base H rec refVal w r w' :
  keeps_base rec ->
  baseFolder (opts w) <> None ->
  getRefSchema_file H rec refVal w = Some (r, w') ->
  baseFolder (opts w') <> None.
Proof.
  intros Hrec Hb. unfold getRefSchema_file.
  destruct (file_value H rec refVal w) as [[lv w1]|] eqn:E; [|discriminate].
  intros [= E2]. apply (f_equal snd) in E2. simpl in E2. subst w'.
  rewrite pick_value_opts. by eapply file_value_keeps_base.
Qed.

Lemma visit_keeps_base H rec schema slot node w x kg w' :
  keeps_base rec ->
  baseFolder (opts w) <> None ->
  visit H rec schema slot node w = Some (x, kg, w') ->
  baseFolder (opts w') <> None.
Proof.
  intros Hrec Hb. unfold visit.
  destruct (getRefValue (store w) node) as [refVal|]; [|by intros [= _ _ <-]].
  destruct (addToHistory _ _ refVal) as [addOk s].
  destruct (negb addOk); [by intros [= _ _ <-]|].
  destruct (getRefSchema H rec refVal _ schema _) as [[nv w1]|] eqn:E; [|discriminate].
  assert (Hb1 : baseFolder (opts w1) <> None).
  { unfold getRefSchema in E. destruct (getRefType H (store w) node).
    - by inversion E; subst.
    - by eapply getRefSchema_file_keeps_base in E.
    - by inversion E; subst. }
  destruct nv as [nv|].
  - destruct (Str.mem refVal _); by intros [= _ _ <-].
  - cbn [st set_st opts]. destruct (Str.mem refVal _); cbn [opts set_st];
      destruct (failOnMissing (opts w1)); by intros [= _ _ <-].
Qed.

Lemma walker_keeps_base H rec (Hrec : keeps_base rec) : forall fuel schema parents slot
    node w x w',
  baseFolder (opts w) <> None ->
  walker H rec fuel schema parents slot node w = Some (x, w') ->
  baseFolder (opts w') <> None.
Proof.
  induction fuel as [|f IH]; intros schema parents slot node w x w' Hb; [discriminate|].
  simpl.
  destruct (visit H rec schema slot node w) as [[[nd kg] w1]|] eqn:E; [|discriminate].
  pose proof (visit_keeps_base _ _ _ _ _ _ _ _ _ Hrec Hb E) as Hb1.
  destruct (negb kg); [by intros [= _ <-]|].
  destruct nd; try by intros [= _ <-].
  destruct (is_circular parents node); [by intros [= _ <-]|].
  match goal with
  | |- option_map _ (match ?ks with _ => _ end) = _ -> _ => destruct ks as [keys|]
  | |- match ?ks with _ => _ end = _ -> _ => destruct ks as [keys|]
  end; [|discriminate].
  clear E. revert Hb1. generalize w1.
  induction keys as [|k ks IHk]; intros w0 Hb0; [by intros [= _ <-]|].
  destruct (store w0 !! a) as [c|]; [|discriminate].
  destruct (cell_get c k) as [child|]; [|discriminate].
  destruct (walker H rec f schema (parents ++ [node]) (Some (a, k)) child w0)
    as [[v' w2]|] eqn:E; [|discriminate].
  apply IHk. by eapply IH.
Qed.

Lemma derefSchema_keeps_base H : forall fuel, keeps_base (derefSchema H fuel).
Proof.
  induction fuel as [|f IH]; intros v w x w' Hb; [discriminate|].
  rewrite derefSchema_S. unfold derefSchema_body.
  destruct (checkLocalCircular H (S f) (store w) v) as [[err|]|]; try discriminate.
  - by intros [= _ <-].
  - destruct (circular (st w)); [by intros [= _ <-]|].
    destruct (error_ (st w)); [by intros [= _ <-]|].
    by apply walker_keeps_base.
Qed.

Lemma pick_value_st refVal full lv w : st (snd (pick_value refVal full lv w)) = st w.
Proof.
  unfold pick_value. destruct lv as [lv|]; [|reflexivity].
  destruct (truthy lv); [|reflexivity]. cbn zeta.
  destruct (Str.nonempty full && _), (Str.has_hash refVal); reflexivity.
Qed.

(** ** Unresolvable local references *)

Lemma assoc_set_same {A : Type} k (x : A) l : assoc k l = Some x -> assoc_set k x l = l.
Proof.
  induction l as [|[k1 y] l IH]; simpl; [reflexivity|].
  destruct (String.eqb k k1); [intros [= ->]; reflexivity|].
  intros E. by rewrite IH.
Qed.

Lemma store_set_same h a k c v :
  h !! a = Some c -> cell_get c k = Some v -> store_set h a k v = h.
Proof.
  intros Hc Hg. unfold store_set. rewrite Hc.
  assert (cell_set c k v = c) as ->.
  { destruct c, k; simpl in *; try reflexivity.
    - by rewrite list_insert_id.
    - by rewrite assoc_set_same. }
  by apply list_insert_id.
Qed.

Lemma update_same slot v h : slot_holds slot v h -> update slot v h = h.
Proof.
  destruct slot as [[a k]|]; simpl; [|reflexivity].
  intros (c & Hc & Hg). by eapply store_set_same.
Qed.

Lemma step_segment_repr h v j seg :
  repr h v j ->
  match step_segment h v seg, tree_step j seg with
  | Some v', Some j' => repr h v' j'
  | None, None => True
  | _, _ => False
  end.
Proof.
  intros Hr. inversion Hr as [| | | | |a vs items Ha F|a fs fields Ha F]; subst;
    simpl; try exact I; rewrite Ha.
  - rewrite (Forall2_length _ _ _ F).
    destruct (find _ (seq 0 (length items))) as [i|]; [|exact I].
    destruct (items !! i) as [jx|] eqn:Ej.
    + destruct (Forall2_lookup_r _ _ _ _ _ F Ej) as (vx & -> & _ & Hx). exact Hx.
    + apply lookup_ge_None in Ej. rewrite <- (Forall2_length _ _ _ F) in Ej.
      apply lookup_ge_None in Ej. by rewrite Ej.
  - pose proof (assoc_Forall2 (fun v j => below a v /\ repr h v j) seg fs fields F) as HA.
    destruct (assoc seg fs), (assoc seg fields); try contradiction; [|exact I].
    by destruct HA.
Qed.

Lemma walk_segments_repr h : forall segs v j,
  repr h v j ->
  match walk_segments h v segs, tree_walk j segs with
  | Some v', Some j' => repr h v' j'
  | None, None => True
  | _, _ => False
  end.
Proof.
  induction segs as [|seg segs IH]; intros v j Hr; simpl; [exact Hr|].
  pose proof (step_segment_repr h v j seg Hr) as Hs.
  destruct (step_segment h v seg) as [v'|], (tree_step j seg) as [j'|];
    try contradiction; [|exact I].
  by apply IH.
Qed.

Lemma getRefPathValue_none h v j r :
  repr h v j -> resolve_pointer j r = None -> getRefPathValue h v r = None.
Proof.
  intros Hr Hn. unfold getRefPathValue, resolve_pointer in *.
  pose proof (walk_segments_repr h (pointer_segments r) v j Hr) as Hw.
  rewrite Hn in Hw. by destruct (walk_segments h v (pointer_segments r)).
Qed.

Lemma nonempty_marker a b : Str.nonempty (a +++ ":" +++ b) = true.
Proof. by destruct a. Qed.

Lemma mem_app_self r m : Str.mem r (m ++ [r]) = true.
Proof.
  unfold Str.mem. rewrite existsb_app. simpl. rewrite String.eqb_refl.
  by rewrite orb_true_r.
Qed.

Lemma add_once_idem r m : add_once r (add_once r m) = add_once r m.
Proof.
  unfold add_once. destruct (Str.mem r m) eqn:E; [by rewrite E|].
  by rewrite mem_app_self.
Qed.

Lemma note_missing_idem b r s : note_missing b r (note_missing b r s) = note_missing b r s.
Proof.
  unfold note_missing. destruct s, b; cbn; by rewrite add_once_idem.
Qed.

Lemma touch_touch b r n1 n2 w : touch b r n2 (touch b r n1 w) = touch b r (n1 || n2) w.
Proof.
  destruct n1, n2; simpl; try reflexivity.
  unfold set_st. cbn. by rewrite note_missing_idem.
Qed.

Lemma touch_store b r n w : store (touch b r n w) = store w.
Proof. by destruct n. Qed.

Lemma touch_opts b r n w : opts (touch b r n w) = opts w.
Proof. by destruct n. Qed.

Lemma touch_history b r n w : history (st (touch b r n w)) = history (st w).
Proof. destruct n; [|reflexivity]. unfold note_missing. by destruct b. Qed.

(** The callback on an unresolvable local reference: the node stays, the
    reference string is noted, and with [failOnMissing] the error is set
    and the walk does not enter the node. *)
Lemma visit_missing H rec schema slot v w r b :
  getRefValue (store w) v = Some r ->
  Str.starts_with_hash r = true ->
  getRefPathValue (store w) schema r = None ->
  history (st w) = [] ->
  failOnMissing (opts w) = b ->
  slot_holds slot v (store w) ->
  visit H rec schema slot v w = Some (v, negb b, touch b r true w).
Proof.
  intros Hv Hh Hl Hhist Hb Hs. unfold visit, getRefType. rewrite Hv, Hh.
  assert (Hne : String.eqb r "#" = false).
  { destruct (String.eqb_spec r "#") as [->|]; [|reflexivity].
    vm_compute in Hl. discriminate. }
  unfold addToHistory. rewrite Hne, nonempty_marker, Hhist.
  change (Str.mem (Str.toLowerCase (current (st w) +++ ":" +++ r)) []) with false.
  cbn [negb setCurrent getRefSchema set_st store]. rewrite Hl.
  destruct w as [h c s [bf fm] l], s as [ci cr cw ms hi cu er].
  cbn [store st opts history failOnMissing] in *. subst hi b.
  pose proof (update_same slot v h Hs) as Hu.
  unfold touch, note_missing, add_once.
  cbn -[update Str.mem].
  destruct (Str.mem r ms) eqn:Em, fm; cbn -[update Str.mem]; rewrite ?Em, Hu; reflexivity.
Qed.

Lemma all_refs_carry_child r j k jk :
  all_refs_carry r j = true -> child_of j k = Some jk -> all_refs_carry r jk = true.
Proof.
  destruct j, k; try discriminate; intros Hn Hc; cbn [all_refs_carry] in Hn;
    apply andb_true_iff in Hn as [_ Hn]; rewrite forallb_forall in Hn; simpl in Hc.
  - apply list_elem_of_lookup_2, list_elem_of_In in Hc. auto.
  - apply assoc_In in Hc. apply (Hn _ Hc).
Qed.

Lemma all_refs_carry_at r : forall q j r',
  all_refs_carry r j = true -> ref_at j q r' -> r' = r.
Proof.
  induction q as [|k q IH]; intros j r' Hn Hq.
  - apply (proj1 (ref_at_nil _ _)) in Hq. destruct j; cbn [all_refs_carry] in Hn; rewrite Hq in Hn;
      apply andb_true_iff in Hn as [Hn _]; by apply String.eqb_eq in Hn.
  - apply ref_at_cons in Hq as (jk & Hc & Hq).
    eapply IH; [|exact Hq]. by eapply all_refs_carry_child.
Qed.

(** The walk over a copy all of whose reference nodes carry the same
    unresolvable local reference [r]: nothing is replaced, and the state
    notes [r] exactly when a reference node is met. *)
Lemma walker_only_missing H rec b r (Hh : Str.starts_with_hash r = true) :
  forall fuel schema parents slot v j w,
  repr (store w) v j -> depth j < fuel -> parents_above parents v ->
  (forall q' r', ref_at j q' r' -> r' = r) ->
  getRefPathValue (store w) schema r = None ->
  history (st w) = [] -> failOnMissing (opts w) = b ->
  slot_holds slot v (store w) ->
  exists n, walker H rec fuel schema parents slot v w = Some (v, touch b r n w)
    /\ (n = true <-> exists q' r', ref_at j q' r').
Proof.
  induction fuel as [|f IH];
    intros schema parents slot v j w Hr Hd Hp Hall Hl Hhist Hb Hs; [lia|].
  cbn [walker].
  assert (Hvisit : exists n0,
    visit H rec schema slot v w = Some (v, negb (n0 && b), touch b r n0 w)
    /\ (n0 = true <-> tree_ref j <> None)).
  { destruct (tree_ref j) as [r0|] eqn:Et.
    - assert (r0 = r) as -> by (apply (Hall [] r0); by apply (proj2 (ref_at_nil _ _))).
      exists true. split; [|split; congruence].
      apply visit_missing; auto. by rewrite (getRefValue_repr _ _ _ Hr).
    - exists false. split; [|split; congruence].
      by apply (visit_plain H rec schema slot v w j). }
  destruct Hvisit as (n0 & -> & Hn0).
  destruct (n0 && b) eqn:Enb; cbn [negb].
  { apply andb_true_iff in Enb as [-> _]. exists true. split; [reflexivity|].
    split; [intros _|reflexivity].
    destruct (tree_ref j) as [r0|] eqn:Et; [|by destruct (proj1 Hn0 eq_refl)].
    exists [], r0. by apply (proj2 (ref_at_nil _ _)). }
  destruct v as [| | | | |a];
    try (exists n0; split; [reflexivity|]; rewrite Hn0; split;
         [intros Ht; destruct (tree_ref j) as [r0|] eqn:Et; [|congruence];
          exists [], r0; by apply (proj2 (ref_at_nil _ _))
         |intros ([|k q'] & r' & Hq);
          [apply (proj1 (ref_at_nil _ _)) in Hq; congruence
          |apply ref_at_cons in Hq as (jk & Hc & _); inversion Hr; subst; discriminate]]).
  rewrite (parents_above_not_circular _ _ Hp).
  assert (Hc : exists c, store w !! a = Some c) by (inversion Hr; subst; eauto).
  destruct Hc as [c Hc]. rewrite Hc. cbn [option_map val_eqb]. rewrite Nat.eqb_refl.
  destruct (repr_cell _ a j c Hr Hc) as [Hkeys Hchild]. rewrite Hkeys.
  assert (Hloop : forall ks ncur, (forall k, In k ks -> In k (tree_keys j)) ->
    exists n',
      (fix go (keys : list key) (w : world) : option world :=
         match keys with
         | [] => Some w
         | k :: r =>
             match store w !! a with
             | None => None
             | Some c =>
                 match cell_get c k with
                 | None => None
                 | Some child =>
                     match walker H rec f schema (parents ++ [VPtr a]) (Some (a, k)) child w with
                     | Some (_, w') => go r w'
                     | None => None
                     end
                 end
             end
         end) ks (touch b r ncur w) = Some (touch b r n' w)
      /\ (n' = true <-> ncur = true \/
            exists k jk q' r', In k ks /\ child_of j k = Some jk /\ ref_at jk q' r')).
  { induction ks as [|k ks IHk]; intros ncur Hin.
    - exists ncur. split; [reflexivity|]. split; [auto|].
      intros [?|(? & ? & ? & ? & [] & _)]; auto.
    - rewrite touch_store, Hc.
      destruct (Hchild k (Hin k (or_introl eq_refl))) as (child & jk & Hg & Hck & Hbl & Hrk).
      rewrite Hg.
      destruct (IH schema (parents ++ [VPtr a]) (Some (a, k)) child jk (touch b r ncur w))
        as (n1 & -> & Hn1).
      + by rewrite touch_store.
      + pose proof (depth_child _ _ _ Hck). lia.
      + by apply parents_above_child.
      + intros q' r' Hq. apply (Hall (k :: q') r'). apply ref_at_cons. eauto.
      + by rewrite touch_store.
      + by rewrite touch_history.
      + by rewrite touch_opts.
      + rewrite touch_store. simpl. eauto.
      + rewrite touch_touch.
        destruct (IHk (ncur || n1)) as (n' & -> & Hn'); [intros; apply Hin; by right|].
        exists n'. split; [reflexivity|]. rewrite Hn', orb_true_iff, Hn1. split.
        * intros [[?|(q' & r' & Hq)]|(k' & jk' & q' & r' & Hk' & Hc' & Hq)]; auto.
          -- right. exists k, jk, q', r'. repeat split; auto. by left.
          -- right. exists k', jk', q', r'. repeat split; auto. by right.
        * intros [?|(k' & jk' & q' & r' & [<-|Hk'] & Hc' & Hq)]; auto.
          -- left. right. rewrite Hck in Hc'. inversion Hc'; subst. eauto.
          -- right. exists k', jk', q', r'. auto. }
  destruct (Hloop (tree_keys j) n0) as (n' & -> & Hn'); [auto|].
  exists n'. split; [reflexivity|]. rewrite Hn', Hn0. split.
  - intros [Ht|(k & jk & q' & r' & _ & Hck & Hq)].
    + destruct (tree_ref j) as [r0|] eqn:Et; [|congruence].
      exists [], r0. by apply (proj2 (ref_at_nil _ _)).
    + exists (k :: q'), r'. apply ref_at_cons. eauto.
  - intros ([|k q'] & r' & Hq).
    + left. apply (proj1 (ref_at_nil _ _)) in Hq. congruence.
    + right. apply ref_at_cons in Hq as (jk & Hck & Hq).
      exists k, jk, q', r'. repeat split; auto. by eapply child_in_keys.
Qed.

(** ** The top-level call *)

(** A call on a document with local references only computes once the
    fingerprint of the document is known to be the empty string or not. *)
Ltac run_local H d :=
  unfold deref, initial_world; generalize (fingerprint H d);
  intros [|? ?]; eexists;
  (split; [vm_compute; reflexivity|repeat split; vm_compute; reflexivity]).

(** C9: for every document in which no object has a [$ref] key, [deref]
    returns, from whatever process state earlier calls left, a document
    structurally equal to its input. *)
Theorem deref_without_refs_is_identity (H : host) (p : process) (d : json)
    (o : options) (fuel : nat) :
  no_ref_key d = true -> depth d < fuel ->
  exists out, deref H fuel p d o = Some out /\ returned_doc out = Some d.
Proof.
  intros Hn Hd. unfold deref, initial_world.
  destruct (alloc_repr d []) as (new & Eh & Hr & Hb). simpl in Eh, Hr, Hb.
  destruct (alloc d []) as [v h]. simpl in *. subst h.
  destruct fuel as [|f]; [lia|]. rewrite derefSchema_S. unfold derefSchema_body.
  cbn [set_cache store cache st opts loads circular error_].
  destruct (checkLocalCircular_alloc H (S f) new v d Hr Hd) as (locals & Hc & Hm).
  rewrite Hc.
  assert (locals = []) as ->.
  { destruct locals as [|e l]; [reflexivity|]. exfalso.
    destruct (proj1 (Hm e) (or_introl eq_refl)) as (q & r & Hl & _).
    exact (no_ref_key_no_local d q r Hn Hl). }
  cbn [check_locals].
  rewrite (walker_plain H (derefSchema H f) (S f) v [] None v d); auto.
  cbn [st error_].
  assert (Hre : reify (S (length new)) new v = Some d).
  { apply reify_repr; [exact Hr|]. by apply (repr_reify_bound new v d). }
  destruct v; eexists; (split; [reflexivity|exact Hre]).
Qed.

Lemma deref_without_refs_is_identity_witness :
  let d := JObj [("a", JArr [JNum 1; JStr "x"]); ("b", JNull)] in
  let p := mkProcess [("/work/x.json", VPtr 0)] [CObj [("k", VNum 7)]] in
  exists out, deref (Posix.host_of x_files) 3 p d no_options = Some out
              /\ returned_doc out = Some d.
Proof.
  intros d p. apply (deref_without_refs_is_identity (Posix.host_of x_files) p d no_options 3).
  - reflexivity.
  - simpl. lia.
Defined.

(** C8: the module-level cache is emptied at the start of every call, so
    a call made after another one gives exactly what it gives alone. *)
Theorem deref_after_deref (H : host) (fuel : nat) (p : process)
    (d1 : json) (o1 : options) (d2 : json) (o2 : options) (out1 : outcome) :
  deref H fuel p d1 o1 = Some out1 ->
  deref_twice H fuel p d1 o1 d2 o2 = deref H fuel fresh_process d2 o2.
Proof.
  intros E. unfold deref_twice. rewrite E. reflexivity.
Qed.

Lemma deref_after_deref_witness :
  exists out1,
    deref (Posix.host_of x_files) 5 fresh_process twice_doc no_options = Some out1
    /\ cache_var (process_after out1) <> []
    /\ deref_twice (Posix.host_of x_files) 5 fresh_process twice_doc no_options
         chain_doc no_options
       = deref (Posix.host_of x_files) 5 fresh_process chain_doc no_options.
Proof.
  eexists. split; [vm_compute; reflexivity|]. split; [discriminate|].
  eapply deref_after_deref. vm_compute. reflexivity.
Defined.

(** C4: on the document of two members that refer to each other [deref]
    returns a circular-reference error; the static pass raises it, so the
    clone is untouched, nothing is recorded as missing and no loader is
    called. *)
Theorem two_cycle_rejected (H : host) (p : process) (o : options) (fuel : nat) :
  3 <= fuel ->
  exists out, deref H fuel p two_cycle o = Some out
    /\ returned out = VErr (CircularFromTo "b" "#/a")
    /\ is_circular_reference (CircularFromTo "b" "#/a") = true
    /\ checkLocalCircular H 3 (snd (alloc two_cycle [])) (fst (alloc two_cycle []))
       = Some (Some (CircularFromTo "b" "#/a"))
    /\ store (after out) = snd (alloc two_cycle [])
    /\ missing (st (after out)) = []
    /\ loads (after out) = [].
Proof.
  intros Hf. eexists. split.
  - apply (deref_mono H 3 fuel); [exact Hf|]. vm_compute. reflexivity.
  - repeat split; reflexivity.
Qed.

Lemma two_cycle_rejected_witness :
  exists out, deref (Posix.host_of []) 4 fresh_process two_cycle no_options = Some out
    /\ returned out = VErr (CircularFromTo "b" "#/a").
Proof.
  destruct (two_cycle_rejected (Posix.host_of []) fresh_process no_options 4 ltac:(lia))
    as (out & E & R & _).
  exists out. split; assumption.
Defined.

(** C1: on a document accepted by the static pass in which the target of
    a local reference is itself a reference node, [deref] returns a
    document that still has a [$ref] key; so it does on [deep_chain], where
    the target [t] of the reference [p] holds a further reference. *)
Theorem chain_leaves_ref (H : host) (p : process) (o : options) (fuel : nat) :
  4 <= fuel ->
  (exists out, deref H fuel p chain_doc o = Some out
     /\ checkLocalCircular H 4 (snd (alloc chain_doc [])) (fst (alloc chain_doc []))
        = Some None
     /\ returned_doc out
        = Some (JObj [("a", ref "#/c"); ("b", JNum 1); ("c", JNum 1)])
     /\ no_ref_key (JObj [("a", ref "#/c"); ("b", JNum 1); ("c", JNum 1)]) = false)
  /\ (exists out, deref H fuel p deep_chain o = Some out
     /\ checkLocalCircular H 4 (snd (alloc deep_chain [])) (fst (alloc deep_chain []))
        = Some None
     /\ returned_doc out
        = Some (JObj [("p", JObj [("y", ref "#/w")]); ("t", JObj [("y", ref "#/w")]);
                      ("u", ref "#/w"); ("v", JNum 1); ("w", JNum 1)])).
Proof.
  intros Hf.
  assert (Hrun :
    (exists out, deref H 4 p chain_doc o = Some out
       /\ checkLocalCircular H 4 (snd (alloc chain_doc [])) (fst (alloc chain_doc []))
          = Some None
       /\ returned_doc out
          = Some (JObj [("a", ref "#/c"); ("b", JNum 1); ("c", JNum 1)])
       /\ no_ref_key (JObj [("a", ref "#/c"); ("b", JNum 1); ("c", JNum 1)]) = false)
    /\ (exists out, deref H 4 p deep_chain o = Some out
       /\ checkLocalCircular H 4 (snd (alloc deep_chain [])) (fst (alloc deep_chain []))
          = Some None
       /\ returned_doc out
          = Some (JObj [("p", JObj [("y", ref "#/w")]); ("t", JObj [("y", ref "#/w")]);
                        ("u", ref "#/w"); ("v", JNum 1); ("w", JNum 1)]))).
  { split; [run_local H chain_doc|run_local H deep_chain]. }
  destruct Hrun as [(o1 & E1 & R1) (o2 & E2 & R2)]. split.
  - exists o1. split; [by apply (deref_mono H 4 fuel)|exact R1].
  - exists o2. split; [by apply (deref_mono H 4 fuel)|exact R2].
Qed.

Lemma chain_leaves_ref_witness :
  exists out, deref (Posix.host_of []) 4 fresh_process chain_doc no_options = Some out
    /\ returned_doc out = Some (JObj [("a", ref "#/c"); ("b", JNum 1); ("c", JNum 1)]).
Proof.
  destruct (chain_leaves_ref (Posix.host_of []) fresh_process no_options 4 ltac:(lia))
    as [(out & E & _ & R & _) _].
  exists out. split; assumption.
Defined.

(** ** The static pass *)




(** ** The resolution state *)

(** C5, as the code has it: once [state.circular] is true or [state.error]
    is set, a [derefSchema] call entered afterwards leaves the document it
    is given untouched and returns an [Error], and the top-level call
    returns an [Error] whenever [state.error] is set at the end. *)
Theorem derefSchema_after_error (H : host) (fuel : nat) :
  (forall (doc : json) (w : world) (e0 : error),
     circular (st w) = true \/ error_ (st w) = Some e0 ->
     depth doc < fuel ->
     exists e,
       derefSchema H fuel (fst (alloc doc (store w)))
                   (set_store (snd (alloc doc (store w))) w)
       = Some (VErr e, set_store (snd (alloc doc (store w))) w))
  /\ (forall (p : process) (d : json) (o : options) (out : outcome) (e0 : error),
        deref H fuel p d o = Some out ->
        error_ (st (after out)) = Some e0 ->
        exists e, returned out = VErr e).
Proof.
  split.
  - intros doc w e0 Hset Hd.
    destruct (alloc_repr doc (store w)) as (new & Eh & Hr & Hb).
    destruct (alloc doc (store w)) as [v h]. simpl in *. subst h.
    destruct fuel as [|f]; [lia|]. rewrite derefSchema_S. unfold derefSchema_body.
    cbn [store set_store st].
    destruct (checkLocalCircular_alloc H (S f) _ v doc Hr Hd) as (locals & -> & _).
    destruct (check_locals locals) as [err|]; [eauto|].
    destruct (circular (st w)) eqn:Ec; [eauto|].
    destruct Hset as [Hc|He]; [discriminate|]. rewrite He. eauto.
  - intros p d o out e0. unfold deref.
    destruct (initial_world H p d o) as [v w0].
    destruct (derefSchema H fuel v w0) as [[ret w]|]; [|discriminate].
    destruct ret, (error_ (st w)) eqn:Ee; intros [= <-]; simpl; intros He;
      eauto; congruence.
Qed.

Lemma derefSchema_after_error_witness :
  let H := Posix.host_of [] in
  let w := mkWorld [] [] (mkState false [] "/work" ["#/zz"] [] "" (Some (MissingRef "#/zz")))
                   (mkOptions (Some "/work") true) [] in
  (exists e, derefSchema H 3 (fst (alloc chain_doc [])) (set_store (snd (alloc chain_doc [])) w)
             = Some (VErr e, set_store (snd (alloc chain_doc [])) w))
  /\ exists out e,
       deref H 4 fresh_process missing_then_found strict_options = Some out
       /\ returned out = VErr e.
Proof.
  intros H w. split.
  - apply (proj1 (derefSchema_after_error H 3) chain_doc w (MissingRef "#/zz")).
    + right. reflexivity.
    + simpl. lia.
  - eexists. 
    assert (E : deref H 4 fresh_process missing_then_found strict_options
                = Some (mkOutcome (VErr (MissingRef "#/zz"))
                          (mkWorld
                             [CObj [("$ref", VStr "#/zz")]; CObj [("$ref", VStr "#/c")];
                              CObj [("a", VPtr 0); ("b", VNum 1); ("c", VNum 1)]]
                             []
                             (mkState false [] "/work" ["#/zz"] []
                                "d41d8cd98f00b204e9800998ecf8427e"
                                (Some (MissingRef "#/zz")))
                             (mkOptions (Some "/work") true) [])))
      by (vm_compute; reflexivity).
    destruct (proj2 (derefSchema_after_error H 4) fresh_process missing_then_found
                strict_options _ (MissingRef "#/zz") E eq_refl) as [e He].
    exists e. split; [exact E|exact He].
Defined.

(** C5, as the claim has it, fails: with [failOnMissing] the walk sets
    [state.error] at the unresolvable reference [a] and then still replaces
    the reference [b] in the working copy. *)
Lemma substitution_after_error :
  let H := Posix.host_of [] in
  let root := fst (initial_world H fresh_process missing_then_found strict_options) in
  let w0 := snd (initial_world H fresh_process missing_then_found strict_options) in
  exists w1 w2 out,
    error_ (st w0) = None
    /\ visit H (derefSchema H 3) root (Some (2, KProp "a")) (VPtr 0) w0
       = Some (VPtr 0, false, w1)
    /\ error_ (st w1) = Some (MissingRef "#/zz")
    /\ reify 3 (store w1) root = Some missing_then_found
    /\ visit H (derefSchema H 3) root (Some (2, KProp "b")) (VPtr 1) w1
       = Some (VNum 1, true, w2)
    /\ reify 3 (store w2) root
       = Some (JObj [("a", ref "#/zz"); ("b", JNum 1); ("c", JNum 1)])
    /\ deref H 4 fresh_process missing_then_found strict_options = Some out
    /\ after out = w2
    /\ returned out = VErr (MissingRef "#/zz").
Proof.
  do 3 eexists. split; [reflexivity|].
  split; [vm_compute; reflexivity|]. split; [reflexivity|].
  split; [vm_compute; reflexivity|].
  split; [vm_compute; reflexivity|].
  split; [vm_compute; reflexivity|].
  split; [vm_compute; reflexivity|].
  split; reflexivity.
Qed.

(** ** Missing references *)

Lemma ref_at_pointer h v d q r : ref_at d q r -> repr h v d -> exists a, v = VPtr a.
Proof.
  intros Hq Hr. destruct q as [|k q].
  - apply (proj1 (ref_at_nil _ _)) in Hq. destruct d; try discriminate. inversion Hr; eauto.
  - apply ref_at_cons in Hq as (jk & Hc & _).
    destruct d, k; try discriminate; inversion Hr; eauto.
Qed.

Lemma defaults_failOnMissing H o : failOnMissing (defaults H o) = failOnMissing o.
Proof. unfold defaults. by destruct (baseFolder o). Qed.

(** C3, as the code has it: on a document that the static pass accepts and
    whose reference nodes all carry one unresolvable local pointer [r] (in
    particular a document whose only reference is unresolvable), [deref] by
    default returns the document unchanged, the reference node intact,
    having recorded [r] in the [missing] list of its own state; with
    [failOnMissing] it returns the error "Missing $ref".  (The state is not
    part of what is returned.) *)
Theorem missing_reference_default_and_strict (H : host) (p : process) (d : json)
    (bf : option string) (fuel : nat) (q : list key) (r : string) :
  depth d < fuel ->
  ref_at d q r ->
  all_refs_carry r d = true ->
  Str.starts_with_hash r = true ->
  resolve_pointer d r = None ->
  checkLocalCircular H fuel (snd (alloc d [])) (fst (alloc d [])) = Some None ->
  (exists out, deref H fuel p d (mkOptions bf false) = Some out
     /\ returned_doc out = Some d
     /\ missing (st (after out)) = [r]
     /\ error_ (st (after out)) = None)
  /\ (exists out, deref H fuel p d (mkOptions bf true) = Some out
     /\ returned out = VErr (MissingRef r)
     /\ is_circular_reference (MissingRef r) = false).
Proof.
  intros Hd Hq Hall Hh Hun Hacc.
  assert (Hrun : forall b, exists out,
    deref H fuel p d (mkOptions bf b) = Some out
    /\ (if b then returned out = VErr (MissingRef r)
        else returned_doc out = Some d /\ missing (st (after out)) = [r]
             /\ error_ (st (after out)) = None)).
  { intros b. unfold deref, initial_world.
    destruct (alloc_repr d []) as (new & Eh & Hr & Hb). simpl in Eh, Hr, Hb.
    destruct (alloc d []) as [v h]. simpl in *. subst h.
    destruct (ref_at_pointer new v d q r Hq Hr) as [a ->].
    destruct fuel as [|f]; [lia|]. rewrite derefSchema_S. unfold derefSchema_body.
    cbn [set_cache store cache st opts loads circular error_]. rewrite Hacc.
    match goal with
    | |- context [walker H ?rec (S f) _ [] None _ ?w0] =>
        destruct (walker_only_missing H rec b r Hh (S f) (VPtr a) [] None (VPtr a) d w0)
          as (n & -> & Hn)
    end; auto.
    - constructor.
    - intros q' r'. by apply all_refs_carry_at.
    - by apply (getRefPathValue_none new (VPtr a) d r).
    - apply defaults_failOnMissing.
    - exact I.
    - assert (n = true) as -> by (apply Hn; eauto).
      unfold returned_doc.
      destruct b; cbn -[reify]; eexists; (split; [reflexivity|]); [reflexivity|].
      split; [|split; reflexivity]. cbn -[reify].
      apply reify_repr; [exact Hr|]. by apply (repr_reify_bound new (VPtr a) d). }
  split.
  - destruct (Hrun false) as (out & E & R). eauto.
  - destruct (Hrun true) as (out & E & R). eauto.
Qed.

Lemma missing_reference_default_and_strict_witness :
  (exists out,
     deref (Posix.host_of []) 2 fresh_process missing_doc (mkOptions None false) = Some out
     /\ returned_doc out = Some missing_doc
     /\ missing (st (after out)) = ["#/missing/path"]
     /\ error_ (st (after out)) = None)
  /\ (exists out,
     deref (Posix.host_of []) 2 fresh_process missing_doc (mkOptions None true) = Some out
     /\ returned out = VErr (MissingRef "#/missing/path")
     /\ is_circular_reference (MissingRef "#/missing/path") = false).
Proof.
  apply (missing_reference_default_and_strict (Posix.host_of []) fresh_process missing_doc
           None 2 [] "#/missing/path").
  - simpl. lia.
  - reflexivity.
  - reflexivity.
  - reflexivity.
  - reflexivity.
  - vm_compute. reflexivity.
Defined.

(** C3, as the claim has it, fails: the missing-references list is not
    something the caller receives.  The call on the claim's document and a
    call on another document return the same document and leave the same
    options object, with different [missing] lists behind them.  And a
    document whose only reference is the unresolvable [#/b], at the tree
    path [a/b], is rejected by the static pass. *)
Lemma missing_report_not_returned :
  (exists out1 out2,
     deref (Posix.host_of []) 3 fresh_process missing_doc no_options = Some out1
     /\ deref (Posix.host_of []) 3 fresh_process hidden_missing_doc no_options = Some out2
     /\ returned_doc out1 = returned_doc out2
     /\ returned_doc out1 = Some missing_doc
     /\ opts (after out1) = opts (after out2)
     /\ missing (st (after out1)) = ["#/missing/path"]
     /\ missing (st (after out2)) = [])
  /\ (exists out,
        deref (Posix.host_of []) 4 fresh_process suffix_doc no_options = Some out
        /\ resolve_pointer suffix_doc "#/b" = None
        /\ returned out = VErr (CircularFromTo "a/b" "#/b")).
Proof.
  split.
  - do 2 eexists. split; [vm_compute; reflexivity|].
    split; [vm_compute; reflexivity|]. repeat split; reflexivity.
  - eexists. split; [vm_compute; reflexivity|]. split; reflexivity.
Qed.

(** ** Local references *)




(** ** External documents *)




(** ** The caller's options object *)

(** C10, as the code has it: [deref] writes to the caller's options object.
    On entry a missing [baseFolder] is written into it, and it is still set
    when the call returns.  While a file reference that lives in a nested
    folder is resolved, [options.baseFolder] and [state.cwd] are the
    directory of the referenced file; afterwards both are the previous
    [state.cwd]. *)
Theorem options_object_is_written (H : host) (fuel : nat) :
  (forall (p : process) (d : json) (o : options) (out : outcome),
     deref H fuel p d o = Some out ->
     opts (snd (initial_world H p d o)) = defaults H o
     /\ baseFolder (defaults H o)
        = Some (match baseFolder o with Some b => b | None => process_cwd H end)
     /\ exists b, baseFolder (opts (after out)) = Some b)
  /\ (forall (rec : val -> world -> option (val * world)) (refVal : string)
             (w : world) (doc : json),
        truthy_opt (assoc (full_path H refVal w) (cache w)) = false ->
        fileLoader H refVal (opts w) = Some doc ->
        truthy (fst (alloc doc (store w))) = true ->
        String.eqb (path_dirname H (getRefFilePath refVal)) "." = false ->
        Str.nonempty (path_dirname H (getRefFilePath refVal)) = true ->
        Str.nonempty (cwd (st w)) = true ->
        let newBase := path_resolve H (cwd (st w)) (path_dirname H (getRefFilePath refVal)) in
        let w_in :=
          set_base newBase
            (set_store (snd (alloc doc (store w)))
               (add_load (mkLoad refVal (opts w) (full_path H refVal w)) w)) in
        baseFolder (opts w_in) = Some newBase
        /\ cwd (st w_in) = newBase
        /\ forall (lv' : val) (w2 : world),
             rec (fst (alloc doc (store w))) w_in = Some (lv', w2) ->
             exists r w', getRefSchema_file H rec refVal w = Some (r, w')
               /\ baseFolder (opts w') = Some (cwd (st w))
               /\ cwd (st w') = cwd (st w)).
Proof.
  split.
  - intros p d o out E.
    assert (Hi : opts (snd (initial_world H p d o)) = defaults H o).
    { unfold initial_world. by destruct (alloc d []). }
    assert (Hd : baseFolder (defaults H o)
                 = Some (match baseFolder o with Some b => b | None => process_cwd H end)).
    { unfold defaults. by destruct (baseFolder o) eqn:Eb. }
    split; [exact Hi|]. split; [exact Hd|].
    assert (Hout : baseFolder (opts (after out)) <> None).
    { revert E. unfold deref. destruct (initial_world H p d o) as [v w0]. simpl in Hi.
      destruct (derefSchema H fuel v w0) as [[ret w]|] eqn:E; [|discriminate].
      apply derefSchema_keeps_base in E; [|by rewrite Hi, Hd].
      destruct ret, (error_ (st w)); by intros [= <-]. }
    destruct (baseFolder (opts (after out))) as [b|]; [eauto|congruence].
  - intros rec refVal w doc Hmiss Hload Htr Hdot Hdir Hcwd newBase w_in.
    split; [reflexivity|]. split; [reflexivity|].
    intros lv' w2 Hrec. unfold getRefSchema_file, file_value. cbn zeta.
    rewrite Hmiss. cbn [opts add_load]. rewrite Hload.
    cbn [store add_load]. subst w_in newBase.
    destruct (alloc doc (store w)) as [lv h]. simpl in Htr, Hrec. rewrite Htr.
    rewrite Hdot, Hdir. cbn [st set_store add_load]. rewrite Hrec, Hcwd.
    set (pv := pick_value _ _ _ _). exists (fst pv), (snd pv).
    split; [by destruct pv|]. subst pv.
    rewrite pick_value_opts, pick_value_st. split; reflexivity.
Qed.

Lemma options_object_is_written_witness :
  let H := Posix.host_of nested_files in
  let o := mkOptions (Some "/work/rel") false in
  let w0 := snd (initial_world H fresh_process nested_doc o) in
  (exists out, deref H 4 fresh_process nested_doc no_options = Some out
     /\ exists b, baseFolder (opts (after out)) = Some b)
  /\ (exists r w', getRefSchema_file H (derefSchema H 3) "sub/x.json" w0 = Some (r, w')
        /\ baseFolder (opts w') = Some "/work/rel").
Proof.
  intros H o w0.
  destruct (options_object_is_written H 4) as [Hentry _].
  destruct (options_object_is_written H 3) as [_ Hnest].
  split.
  - destruct (deref H 4 fresh_process nested_doc no_options) as [out|] eqn:E;
      [|vm_compute in E; discriminate].
    exists out. split; [reflexivity|].
    exact (proj2 (proj2 (Hentry fresh_process nested_doc no_options out E))).
  - destruct (Hnest (derefSchema H 3) "sub/x.json" w0 (JObj [("k", ref "y.json")]))
      as (_ & _ & Hafter); try (vm_compute; reflexivity).
    destruct (derefSchema H 3 (fst (alloc (JObj [("k", ref "y.json")]) (store w0)))
                (set_base (path_resolve H (cwd (st w0))
                             (path_dirname H (getRefFilePath "sub/x.json")))
                   (set_store (snd (alloc (JObj [("k", ref "y.json")]) (store w0)))
                      (add_load (mkLoad "sub/x.json" (opts w0)
                                   (full_path H "sub/x.json" w0)) w0))))
      as [[lv' w2]|] eqn:E; [|vm_compute in E; discriminate].
    destruct (Hafter lv' w2 eq_refl) as (r & w' & E1 & B & _).
    exists r, w'. split; [exact E1|]. rewrite B. reflexivity.
Defined.

(** C10, as the claim has it, fails: with the relative base folder [rel]
    the nested file is resolved under [/work/rel/sub], and afterwards the
    caller's [baseFolder] is [/work/rel], not the [rel] it was before. *)
Lemma base_folder_not_restored :
  exists out,
    deref (Posix.host_of nested_files) 4 fresh_process nested_doc
          (mkOptions (Some "rel") false) = Some out
    /\ map (fun e => baseFolder (load_options e)) (loads (after out))
       = [Some "rel"; Some "/work/rel/sub"]
    /\ baseFolder (opts (after out)) = Some "/work/rel"
    /\ returned_doc out = Some (JObj [("a", JObj [("k", JNum 5)])]).
Proof.
  eexists. split; [vm_compute; reflexivity|]. repeat split; reflexivity.
Qed.

(** * Further properties of the engine *)

(** ** The static pass *)

Lemma every_ref_child P j k jk :
  every_ref P j = true -> child_of j k = Some jk -> every_ref P jk = true.
Proof.
  destruct j, k; try discriminate; intros Hn Hc; cbn [every_ref] in Hn;
    apply andb_true_iff in Hn as [_ Hn]; rewrite forallb_forall in Hn; simpl in Hc.
  - apply list_elem_of_lookup_2, list_elem_of_In in Hc. auto.
  - apply assoc_In in Hc. apply (Hn _ Hc).
Qed.

Lemma every_ref_at P : forall q j r,
  every_ref P j = true -> ref_at j q r -> P r = true.
Proof.
  induction q as [|k q IH]; intros j r Hn Hq.
  - apply (proj1 (ref_at_nil _ _)) in Hq. destruct j; cbn [every_ref] in Hn;
      rewrite Hq in Hn; by apply andb_true_iff in Hn as [Hn _].
  - apply ref_at_cons in Hq as (jk & Hc & Hq).
    eapply IH; [|exact Hq]. by eapply every_ref_child.
Qed.

Lemma every_ref_tree_ref j : no_reference j = true -> tree_ref j = None.
Proof.
  unfold no_reference. intros Hn. destruct (tree_ref j) as [r|] eqn:E; [|reflexivity].
  pose proof (every_ref_at (fun _ => false) [] j r Hn E). discriminate.
Qed.

(** X3: the static pass looks at local references only: on the copy of a
    document without local reference nodes, whatever file or unsupported
    references it has, [checkLocalCircular] returns [undefined]. *)
Theorem static_pass_accepts_without_local_references (H : host) (fuel : nat)
    (d : json) (h : heap) :
  no_local_reference d = true -> depth d < fuel ->
  checkLocalCircular H fuel (snd (alloc d h)) (fst (alloc d h)) = Some None.
Proof.
  intros Hn Hd. destruct (alloc_repr d h) as (new & Eh & Hr & _).
  destruct (alloc d h) as [v h']. simpl in *. subst h'.
  destruct (checkLocalCircular_alloc H fuel _ v d Hr Hd) as (locals & -> & Hm).
  destruct locals as [|e l]; [reflexivity|]. exfalso.
  destruct (proj1 (Hm e) (or_introl eq_refl)) as (q & r & [Hq Hh] & _).
  pose proof (every_ref_at _ q d r Hn Hq) as Hp. simpl in Hp. rewrite Hh in Hp.
  discriminate.
Qed.

Lemma static_pass_accepts_without_local_references_witness :
  checkLocalCircular (Posix.host_of []) 3 (snd (alloc twice_doc [])) (fst (alloc twice_doc []))
  = Some None.
Proof.
  apply (static_pass_accepts_without_local_references (Posix.host_of []) 3 twice_doc []).
  - reflexivity.
  - simpl. lia.
Defined.

(** X1: a reference node whose [$ref] is exactly [#], anywhere in the
    document, makes [deref] return the error 'Circular self reference'; the
    clone is left as it is and no loader is called. *)
Theorem root_self_reference_rejected (H : host) (p : process) (d : json) (o : options)
    (fuel : nat) (q : list key) :
  depth d < fuel ->
  ref_at d q "#" ->
  exists out, deref H fuel p d o = Some out
    /\ returned out = VErr CircularSelf
    /\ after out = snd (initial_world H p d o).
Proof.
  intros Hd Hq. unfold deref, initial_world.
  destruct (alloc_repr d []) as (new & Eh & Hr & Hb). simpl in Eh, Hr, Hb.
  destruct (alloc d []) as [v h]. simpl in *. subst h.
  destruct fuel as [|f]; [lia|]. rewrite derefSchema_S. unfold derefSchema_body.
  cbn [set_cache store cache st opts loads].
  destruct (checkLocalCircular_alloc H (S f) new v d Hr Hd) as (locals & -> & Hm).
  assert (Hin : In (mkEdge (path_string q) "#") locals).
  { apply Hm. exists q, "#". split; [split; [exact Hq|reflexivity]|reflexivity]. }
  assert (check_locals locals = Some CircularSelf) as ->.
  { unfold check_locals. destruct locals as [|x l]; [contradiction|].
    assert (existsb (fun elem => String.eqb (to elem) "#") (x :: l) = true) as ->;
      [|reflexivity].
    apply existsb_exists. eexists. split; [exact Hin|reflexivity]. }
  eexists. repeat split.
Qed.

Lemma root_self_reference_rejected_witness :
  exists out,
    deref (Posix.host_of []) 4 fresh_process
      (JObj [("a", JArr [JNum 1; ref "#"])]) no_options = Some out
    /\ returned out = VErr CircularSelf.
Proof.
  destruct (root_self_reference_rejected (Posix.host_of []) fresh_process
              (JObj [("a", JArr [JNum 1; ref "#"])]) no_options 4
              [KProp "a"; KIdx 1]) as (out & E & R & _).
  - simpl. lia.
  - reflexivity.
  - exists out. split; assumption.
Defined.

Lemma prefix_refl s : String.prefix s s = true.
Proof.
  induction s as [|a s IH]; simpl; [reflexivity|].
  destruct (ascii_dec a a); [exact IH|congruence].
Qed.

Lemma contains_refl s : Str.contains s s = true.
Proof.
  unfold Str.contains. destruct s as [|a s]; [reflexivity|].
  cbn [String.index]. by rewrite prefix_refl.
Qed.

Lemma nonempty_slash s : Str.nonempty (s +++ "/") = true.
Proof. by destruct s. Qed.

Lemma reaches_back_edge g f t : In (t, f) g -> reaches_back (length g) g f t = true.
Proof.
  intros Hin. destruct g as [|e g]; [contradiction|].
  cbn [length reaches_back]. apply orb_true_iff. right.
  apply existsb_exists. exists (t, f). split; [exact Hin|]. simpl.
  rewrite String.eqb_refl. simpl. destruct (length g); simpl; by rewrite String.eqb_refl.
Qed.

Lemma existsb_edge g f t :
  existsb (fun e : string * string => String.eqb (fst e) f && String.eqb (snd e) t) g = true
  <-> In (f, t) g.
Proof.
  rewrite existsb_exists. split.
  - intros ([x y] & Hin & He). simpl in He. apply andb_true_iff in He as [Hx Hy].
    apply String.eqb_eq in Hx, Hy. by subst.
  - intros Hin. exists (f, t). split; [exact Hin|]. simpl. by rewrite !String.eqb_refl.
Qed.

(** [addEdge] keeps the graph free of loops and of reversed pairs, keeps
    the edges it has, and has the new edge afterwards. *)
Lemma addEdge_asym g f t g' :
  asym g -> addEdge g f t = Some g' ->
  asym g' /\ (forall e, In e g -> In e g')
  /\ (f <> t -> Str.nonempty f = true -> Str.nonempty t = true -> In (f, t) g').
Proof.
  intros Ha. unfold addEdge.
  destruct (Str.nonempty f) eqn:Ef, (Str.nonempty t) eqn:Et; cbn [negb orb];
    try (intros [= <-]; repeat split; auto; try apply Ha; auto; discriminate).
  destruct (String.eqb_spec f t) as [->|Hne].
  { intros [= <-]. repeat split; auto; try apply Ha; auto. congruence. }
  destruct (existsb _ g) eqn:Ee.
  { intros [= <-]. apply existsb_edge in Ee. repeat split; auto; apply Ha; auto. }
  destruct (reaches_back (length g) g f t) eqn:Er; [discriminate|].
  intros [= <-]. split; [|split].
  - intros x y Hin. apply in_app_iff in Hin as [Hin|[Heq|[]]].
    + destruct (Ha x y Hin) as [Hxy Hrev]. split; [exact Hxy|].
      intros Hin2. apply in_app_iff in Hin2 as [Hin2|[Heq|[]]]; [auto|].
      inversion Heq; subst x y.
      rewrite (reaches_back_edge g f t Hin) in Er. discriminate.
    + inversion Heq; subst x y. split; [exact Hne|]. intros Hin2.
      apply in_app_iff in Hin2 as [Hin2|[Heq2|[]]]; [|inversion Heq2; congruence].
      rewrite (reaches_back_edge g f t Hin2) in Er. discriminate.
  - intros e Hin. apply in_app_iff. by left.
  - intros _ _ _. apply in_app_iff. right. by left.
Qed.

(** [addEdge] throws on the reverse of an edge of the graph. *)
Lemma addEdge_reverse g f t :
  asym g -> In (t, f) g -> Str.nonempty f = true -> Str.nonempty t = true ->
  addEdge g f t = None.
Proof.
  intros Ha Hin Hf Ht. unfold addEdge. rewrite Hf, Ht. cbn [negb orb].
  destruct (Ha t f Hin) as [Hne Hrev].
  destruct (String.eqb_spec f t) as [->|_]; [congruence|].
  destruct (existsb _ g) eqn:Ee; [apply existsb_edge in Ee; contradiction|].
  by rewrite (reaches_back_edge g f t Hin).
Qed.

Lemma find_circular_mutual e1 e2 : forall locals g,
  from e2 +++ "/" = Str.drop 2 (to e1) +++ "/" ->
  Str.drop 2 (to e2) +++ "/" = from e1 +++ "/" ->
  asym g ->
  In e1 locals \/ In (from e1 +++ "/", Str.drop 2 (to e1) +++ "/") g ->
  In e2 locals \/ In (from e2 +++ "/", Str.drop 2 (to e2) +++ "/") g ->
  In e1 locals \/ In e2 locals ->
  exists elem, find_circular g locals = Some elem.
Proof.
  intros locals g E21 E12. revert g.
  induction locals as [|x locals IH]; intros g Ha H1 H2 H12; [by destruct H12|].
  cbn [find_circular].
  destruct (addEdge g (from x +++ "/") (Str.drop 2 (to x) +++ "/")) as [g'|] eqn:Ea;
    [|eauto].
  destruct (Str.contains _ _) eqn:Ec; [eauto|].
  destruct (addEdge_asym _ _ _ _ Ha Ea) as (Ha' & Hkeep & Hnew).
  assert (Hx : from x +++ "/" <> Str.drop 2 (to x) +++ "/").
  { intros Heq. rewrite Heq, contains_refl in Ec. discriminate. }
  specialize (Hnew Hx (nonempty_slash _) (nonempty_slash _)).
  assert (Hstep : forall e, In e (x :: locals) \/ In (from e +++ "/", Str.drop 2 (to e) +++ "/") g ->
                            In e locals \/ In (from e +++ "/", Str.drop 2 (to e) +++ "/") g').
  { intros e [[<-|Hin]|Hin]; auto. }
  assert (Hrest : In e1 locals \/ In e2 locals -> exists elem, find_circular g' locals = Some elem)
    by (intros; apply IH; auto).
  assert (Hclash : forall a b : edge,
            from b +++ "/" = Str.drop 2 (to a) +++ "/" ->
            Str.drop 2 (to b) +++ "/" = from a +++ "/" ->
            In (from a +++ "/", Str.drop 2 (to a) +++ "/") g -> x = b -> False).
  { intros a b Eba Eab Hin ->.
    rewrite (addEdge_reverse g (from b +++ "/") (Str.drop 2 (to b) +++ "/")) in Ea;
      [discriminate|exact Ha| |apply nonempty_slash|apply nonempty_slash].
    by rewrite Eba, Eab. }
  destruct H12 as [[->|Hin1]|[->|Hin2]]; auto.
  - (* x = e1 *)
    destruct H2 as [[->|Hin2]|Hin2]; auto.
    + exfalso. apply Hx. congruence.
    + exfalso. exact (Hclash e2 e1 (eq_sym E12) (eq_sym E21) Hin2 eq_refl).
  - (* x = e2 *)
    destruct H1 as [[->|Hin1]|Hin1]; auto.
    + exfalso. apply Hx. congruence.
    + exfalso. exact (Hclash e1 e2 E21 E12 Hin1 eq_refl).
Qed.

Lemma check_locals_mutual locals e1 e2 :
  In e1 locals -> In e2 locals ->
  from e2 +++ "/" = Str.drop 2 (to e1) +++ "/" ->
  Str.drop 2 (to e2) +++ "/" = from e1 +++ "/" ->
  exists err, check_locals locals = Some err /\ is_circular_reference err = true.
Proof.
  intros H1 H2 E21 E12. unfold check_locals.
  destruct locals as [|x l]; [contradiction|].
  destruct (existsb _ _); [eauto|].
  destruct (find_circular_mutual e1 e2 (x :: l) [] E21 E12) as [elem ->]; eauto.
  intros a b [].
Qed.

(** X2: two local reference nodes that point at each other's tree paths,
    wherever they are in the document, make [deref] return a
    circular-reference error from the static pass; the clone is left as it
    is and no loader is called. *)
Theorem mutual_references_rejected (H : host) (p : process) (d : json) (o : options)
    (fuel : nat) (q1 q2 : list key) (r1 r2 : string) :
  depth d < fuel ->
  local_ref_at d q1 r1 -> local_ref_at d q2 r2 ->
  Str.drop 2 r1 = path_string q2 ->
  Str.drop 2 r2 = path_string q1 ->
  exists out e, deref H fuel p d o = Some out
    /\ returned out = VErr e
    /\ is_circular_reference e = true
    /\ after out = snd (initial_world H p d o).
Proof.
  intros Hd Hl1 Hl2 E1 E2. unfold deref, initial_world.
  destruct (alloc_repr d []) as (new & Eh & Hr & Hb). simpl in Eh, Hr, Hb.
  destruct (alloc d []) as [v h]. simpl in *. subst h.
  destruct fuel as [|f]; [lia|]. rewrite derefSchema_S. unfold derefSchema_body.
  cbn [set_cache store cache st opts loads].
  destruct (checkLocalCircular_alloc H (S f) new v d Hr Hd) as (locals & -> & Hm).
  destruct (check_locals_mutual locals (mkEdge (path_string q1) r1)
              (mkEdge (path_string q2) r2)) as (err & -> & Herr).
  - apply Hm. eauto.
  - apply Hm. eauto.
  - simpl. by rewrite E1.
  - simpl. by rewrite E2.
  - eexists _, err. repeat split; auto.
Qed.

Lemma mutual_references_rejected_witness :
  exists out e,
    deref (Posix.host_of []) 5 fresh_process
      (JObj [("x", JObj [("a", ref "#/y/0")]); ("y", JArr [ref "#/x/a"])]) no_options
    = Some out
    /\ returned out = VErr e
    /\ is_circular_reference e = true.
Proof.
  destruct (mutual_references_rejected (Posix.host_of []) fresh_process
              (JObj [("x", JObj [("a", ref "#/y/0")]); ("y", JArr [ref "#/x/a"])])
              no_options 5 [KProp "x"; KProp "a"] [KProp "y"; KIdx 0] "#/y/0" "#/x/a")
    as (out & e & E & R & C & _).
  - simpl. lia.
  - split; reflexivity.
  - split; reflexivity.
  - reflexivity.
  - reflexivity.
  - exists out, e. auto.
Defined.

(** ** Members named [$ref] that are not references *)

Lemma walker_no_reference H rec : forall fuel schema parents slot v j w,
  repr (store w) v j -> no_reference j = true -> depth j < fuel ->
  walker H rec fuel schema parents slot v w = Some (v, w).
Proof.
  induction fuel as [|f IH]; intros schema parents slot v j w Hr Hn Hd; [lia|].
  simpl. rewrite (visit_plain H rec schema slot v w j Hr (every_ref_tree_ref j Hn)).
  simpl. destruct v as [| | | | |a]; try reflexivity.
  destruct (is_circular parents (VPtr a)); [reflexivity|].
  assert (Hc : exists c, store w !! a = Some c) by (inversion Hr; subst; eauto).
  destruct Hc as [c Hc]. rewrite Hc. simpl. rewrite Nat.eqb_refl.
  destruct (repr_cell _ a j c Hr Hc) as [Hkeys Hchild]. rewrite Hkeys.
  assert (Hloop : forall ks, (forall k, In k ks -> In k (tree_keys j)) ->
    (fix go (keys : list key) (w : world) : option world :=
       match keys with
       | [] => Some w
       | k :: r =>
           match store w !! a with
           | None => None
           | Some c =>
               match cell_get c k with
               | None => None
               | Some child =>
                   match walker H rec f schema (parents ++ [VPtr a]) (Some (a, k)) child w with
                   | Some (_, w') => go r w'
                   | None => None
                   end
               end
           end
       end) ks w = Some w).
  { induction ks as [|k ks IHk]; intros Hin; [reflexivity|].
    rewrite Hc.
    destruct (Hchild k (Hin k (or_introl eq_refl))) as (child & jk & Hg & Hck & _ & Hrk).
    rewrite Hg. rewrite (IH schema _ _ child jk w Hrk).
    - apply IHk. intros; apply Hin; by right.
    - by eapply every_ref_child.
    - pose proof (depth_child _ _ _ Hck). lia. }
  rewrite Hloop by auto. reflexivity.
Qed.

(** X4: a member named [$ref] whose value is not a string is ordinary
    data: on a document in which no object has a string-valued [$ref],
    [deref] changes nothing -- it returns the document, records nothing as
    missing, sets no error and calls no loader. *)
Theorem deref_without_string_refs_is_identity (H : host) (p : process) (d : json)
    (o : options) (fuel : nat) :
  no_reference d = true -> depth d < fuel ->
  exists out, deref H fuel p d o = Some out
    /\ returned_doc out = Some d
    /\ after out = snd (initial_world H p d o).
Proof.
  intros Hn Hd. unfold deref, initial_world.
  destruct (alloc_repr d []) as (new & Eh & Hr & Hb). simpl in Eh, Hr, Hb.
  destruct (alloc d []) as [v h]. simpl in *. subst h.
  destruct fuel as [|f]; [lia|]. rewrite derefSchema_S. unfold derefSchema_body.
  cbn [set_cache store cache st opts loads circular error_].
  destruct (checkLocalCircular_alloc H (S f) new v d Hr Hd) as (locals & Hc & Hm).
  rewrite Hc.
  assert (locals = []) as ->.
  { destruct locals as [|e l]; [reflexivity|]. exfalso.
    destruct (proj1 (Hm e) (or_introl eq_refl)) as (q & r & [Hq _] & _).
    pose proof (every_ref_at _ q d r Hn Hq). discriminate. }
  cbn [check_locals].
  rewrite (walker_no_reference H (derefSchema H f) (S f) v [] None v d); auto.
  cbn [st error_].
  assert (Hre : reify (S (length new)) new v = Some d).
  { apply reify_repr; [exact Hr|]. by apply (repr_reify_bound new v d). }
  destruct v; eexists; (split; [reflexivity|split; [exact Hre|reflexivity]]).
Qed.

Lemma deref_without_string_refs_is_identity_witness :
  let d := JObj [("$ref", JNum 5); ("a", JObj [("$ref", JArr [JStr "#/a"])])] in
  exists out, deref (Posix.host_of []) 4 fresh_process d strict_options = Some out
    /\ returned_doc out = Some d.
Proof.
  intros d.
  destruct (deref_without_string_refs_is_identity (Posix.host_of []) fresh_process d
              strict_options 4) as (out & E & R & _).
  - reflexivity.
  - simpl. lia.
  - exists out. split; assumption.
Defined.

(** ** The visit history *)

Lemma toLowerCase_app a b :
  Str.toLowerCase (a +++ b) = Str.toLowerCase a +++ Str.toLowerCase b.
Proof. induction a as [|c a IH]; simpl; [reflexivity|by rewrite IH]. Qed.

Lemma toLowerCase_nonempty a : Str.nonempty (Str.toLowerCase a) = Str.nonempty a.
Proof. by destruct a. Qed.

Lemma mem_In x l : Str.mem x l = true <-> In x l.
Proof.
  unfold Str.mem. rewrite existsb_exists. split.
  - intros (y & Hin & He). apply String.eqb_eq in He. by subst.
  - intros Hin. exists x. split; [exact Hin|apply String.eqb_refl].
Qed.

(** What [addToHistory] does when it accepts: the marker of the reference
    was not in the history and is now its last entry. *)
Lemma addToHistory_accepts s t v s1 :
  addToHistory s t v = (true, s1) ->
  (t = File -> Str.nonempty (getRefFilePath v) = true) ->
  exists dest, Str.nonempty dest = true
    /\ dest = match t with
              | File => getRefFilePath v
              | _ => current s +++ ":" +++ v
              end
    /\ (t <> File -> String.eqb v "#" = false)
    /\ Str.mem (Str.toLowerCase dest) (history s) = false
    /\ s1 = set_history (history s ++ [Str.toLowerCase dest]) s.
Proof.
  intros Ha Hf. unfold addToHistory in Ha.
  assert (Hgen : forall dest, Str.nonempty dest = true ->
    (if Str.nonempty dest
     then if Str.mem (Str.toLowerCase dest) (history s) then (false, s)
          else (true, set_history (history s ++ [Str.toLowerCase dest]) s)
     else (true, s)) = (true, s1) ->
    Str.mem (Str.toLowerCase dest) (history s) = false
    /\ s1 = set_history (history s ++ [Str.toLowerCase dest]) s).
  { intros dest Hne. rewrite Hne.
    destruct (Str.mem _ _); [discriminate|]. by intros [= <-]. }
  destruct t.
  - destruct (String.eqb v "#") eqn:Ev; [discriminate|].
    exists (current s +++ ":" +++ v).
    destruct (Hgen _ (nonempty_marker _ _) Ha).
    repeat split; auto using nonempty_marker.
  - exists (getRefFilePath v). destruct (Hgen _ (Hf eq_refl) Ha).
    repeat split; auto. congruence.
  - destruct (String.eqb v "#") eqn:Ev; [discriminate|].
    exists (current s +++ ":" +++ v).
    destruct (Hgen _ (nonempty_marker _ _) Ha).
    repeat split; auto using nonempty_marker.
Qed.

(** X5: a reference that is being resolved is refused when it is met
    again, whatever the case of its letters: once [addToHistory] has
    accepted a reference, it returns [false] for a reference of the same
    kind with the same file path (for a file) or the same reference string
    (otherwise) up to case, and leaves the state as it is. *)
Theorem history_refuses_revisit (s s1 : state) (t : refType) (v1 v2 : string) :
  addToHistory s t v1 = (true, s1) ->
  (t = File -> Str.nonempty (getRefFilePath v1) = true) ->
  match t with
  | File => Str.toLowerCase (getRefFilePath v2) = Str.toLowerCase (getRefFilePath v1)
  | _ => Str.toLowerCase v2 = Str.toLowerCase v1
  end ->
  addToHistory s1 t v2 = (false, s1).
Proof.
  intros Ha Hf Hsame.
  destruct (addToHistory_accepts s t v1 s1 Ha Hf) as (dest & Hne & Hd & _ & _ & ->).
  unfold addToHistory.
  assert (Hgen : forall dest2, Str.toLowerCase dest2 = Str.toLowerCase dest ->
    (if Str.nonempty dest2
     then if Str.mem (Str.toLowerCase dest2)
               (history (set_history (history s ++ [Str.toLowerCase dest]) s))
          then (false, set_history (history s ++ [Str.toLowerCase dest]) s)
          else (true, set_history
                        (history (set_history (history s ++ [Str.toLowerCase dest]) s)
                         ++ [Str.toLowerCase dest2])
                        (set_history (history s ++ [Str.toLowerCase dest]) s))
     else (true, set_history (history s ++ [Str.toLowerCase dest]) s))
    = (false, set_history (history s ++ [Str.toLowerCase dest]) s)).
  { intros dest2 He.
    rewrite <- (toLowerCase_nonempty dest2), He, toLowerCase_nonempty, Hne.
    cbn [history set_history]. by rewrite mem_app_self. }
  destruct t; cbn [current set_history];
    try (destruct (String.eqb v2 "#"); [reflexivity|]);
    apply Hgen; subst dest; rewrite ?toLowerCase_app; congruence.
Qed.

Lemma history_refuses_revisit_witness :
  let s := mkState false [] "/work" [] [] "root" None in
  addToHistory (snd (addToHistory s File "Sub/A.json#/x")) File "sub/a.JSON"
  = (false, snd (addToHistory s File "Sub/A.json#/x")).
Proof.
  intros s.
  apply (history_refuses_revisit s _ File "Sub/A.json#/x" "sub/a.JSON");
    reflexivity.
Defined.

(** X6: the history never holds a marker twice: [addToHistory] keeps a
    history without duplicates free of duplicates. *)
Theorem history_keeps_markers_distinct (s : state) (t : refType) (v : string) :
  NoDup (history s) -> NoDup (history (snd (addToHistory s t v))).
Proof.
  intros Hnd. unfold addToHistory.
  assert (Hgen : forall dest,
    NoDup (history (snd
      (if Str.nonempty dest
       then if Str.mem (Str.toLowerCase dest) (history s) then (false, s)
            else (true, set_history (history s ++ [Str.toLowerCase dest]) s)
       else (true, s))))).
  { intros dest. destruct (Str.nonempty dest); [|exact Hnd].
    destruct (Str.mem _ _) eqn:Em; [exact Hnd|]. cbn [snd history set_history].
    apply NoDup_app. split; [exact Hnd|]. split; [|apply NoDup_singleton].
    intros x Hx Hx'. apply list_elem_of_In in Hx, Hx'. destruct Hx' as [<-|[]].
    apply mem_In in Hx. congruence. }
  destruct t; try (destruct (String.eqb v "#"); [exact Hnd|]); apply Hgen.
Qed.

Lemma history_keeps_markers_distinct_witness :
  NoDup (history (snd (addToHistory
                         (mkState false [] "/work" [] ["a.json"] "a.json" None)
                         File "A.JSON"))).
Proof.
  apply history_keeps_markers_distinct. simpl. apply NoDup_singleton.
Defined.

(** The pop that follows an accepted reference undoes its push. *)
Lemma history_pop_after_push s t v s1 :
  addToHistory s t v = (true, s1) ->
  (t = File -> Str.nonempty (getRefFilePath v) = true) ->
  history_pop s1 = s.
Proof.
  intros Ha Hf.
  destruct (addToHistory_accepts s t v s1 Ha Hf) as (dest & _ & _ & _ & _ & ->).
  unfold history_pop, set_history. cbn. rewrite removelast_last. by destruct s.
Qed.

(** ** What a whole resolution keeps *)

(** A relation between the world a step is entered in and the world it
    leaves, once shown for the callback, holds for the walk and for
    [derefSchema] with all its nested resolutions. *)
Section Frame.

Variable H : host.
Variable R : world -> world -> Prop.
Hypothesis R_refl : forall w, R w w.
Hypothesis R_trans : forall a b c, R a b -> R b c -> R a c.
Hypothesis visit_R : forall rec schema slot node w x kg w',
  respects R rec -> visit H rec schema slot node w = Some (x, kg, w') -> R w w'.

Lemma walker_respects rec (Hrec : respects R rec) :
  forall fuel schema parents slot node w x w',
  walker H rec fuel schema parents slot node w = Some (x, w') -> R w w'.
Proof.
  induction fuel as [|f IH]; intros schema parents slot node w x w'; [discriminate|].
  simpl.
  destruct (visit H rec schema slot node w) as [[[nd kg] w1]|] eqn:E; [|discriminate].
  pose proof (visit_R _ _ _ _ _ _ _ _ Hrec E) as R1.
  destruct (negb kg); [by intros [= _ <-]|].
  destruct nd; try by intros [= _ <-].
  destruct (is_circular parents node); [by intros [= _ <-]|].
  match goal with
  | |- option_map _ (match ?ks with _ => _ end) = _ -> _ => destruct ks as [keys|]
  | |- match ?ks with _ => _ end = _ -> _ => destruct ks as [keys|]
  end; [|discriminate].
  clear E. revert R1. generalize w1.
  induction keys as [|k ks IHk]; intros w0 R0; [by intros [= _ <-]|].
  destruct (store w0 !! a) as [c|]; [|discriminate].
  destruct (cell_get c k) as [child|]; [|discriminate].
  destruct (walker H rec f schema (parents ++ [node]) (Some (a, k)) child w0)
    as [[v' w2]|] eqn:E; [|discriminate].
  apply IHk. eapply R_trans; [exact R0|]. by eapply IH.
Qed.

Lemma derefSchema_respects : forall fuel, respects R (derefSchema H fuel).
Proof.
  induction fuel as [|f IH]; intros v w x w'; [discriminate|].
  rewrite derefSchema_S. unfold derefSchema_body.
  destruct (checkLocalCircular H (S f) (store w) v) as [[err|]|]; try discriminate.
  - by intros [= _ <-].
  - destruct (circular (st w)); [by intros [= _ <-]|].
    destruct (error_ (st w)); [by intros [= _ <-]|].
    by apply walker_respects.
Qed.

End Frame.

(** The ways in which the first half of the file branch returns. *)
Lemma file_value_inv H rec refVal w lv w1 :
  file_value H rec refVal w = Some (lv, w1) ->
  (truthy_opt (assoc (full_path H refVal w) (cache w)) = true
   /\ lv = assoc (full_path H refVal w) (cache w) /\ w1 = w)
  \/ (truthy_opt (assoc (full_path H refVal w) (cache w)) = false
      /\ ((fileLoader H refVal (opts w) = None /\ lv = None
           /\ w1 = add_load (mkLoad refVal (opts w) (full_path H refVal w)) w)
          \/ exists doc, fileLoader H refVal (opts w) = Some doc
             /\ ((truthy (fst (alloc doc (store w))) = false
                  /\ lv = Some (fst (alloc doc (store w)))
                  /\ w1 = set_store (snd (alloc doc (store w)))
                            (add_load (mkLoad refVal (opts w) (full_path H refVal w)) w))
                 \/ (truthy (fst (alloc doc (store w))) = true
                     /\ exists lv' w2,
                          rec (fst (alloc doc (store w))) (file_entry H refVal doc w)
                          = Some (lv', w2)
                          /\ lv = Some lv' /\ w1 = file_exit H refVal w w2)))).
Proof.
  unfold file_value, file_entry, file_exit, ref_dirname. cbn zeta.
  destruct (truthy_opt (assoc _ (cache w))) eqn:Ec.
  { intros [= <- <-]. by left. }
  right. split; [reflexivity|]. cbn [opts store add_load] in *.
  destruct (fileLoader H refVal (opts w)) as [doc|].
  - right. exists doc. split; [reflexivity|].
    destruct (alloc doc (store w)) as [v0 h] eqn:Ea. cbn [fst snd].
    destruct (truthy v0) eqn:Et.
    + right. split; [reflexivity|]. revert H0.
      cbn [st set_store add_load].
      destruct (Str.nonempty (if String.eqb _ "." then "" else _)) eqn:Ed.
      * destruct (rec v0 _) as [[lv' w2]|]; [|discriminate].
        intros [= <- <-]. exists lv', w2. repeat split.
      * destruct (rec v0 _) as [[lv' w2]|]; [|discriminate].
        intros [= <- <-]. exists lv', w2. repeat split.
    + left. revert H0. by intros [= <- <-].
  - left. revert H0. by intros [= <- <-].
Qed.

(** The ways in which the callback returns. *)
Lemma visit_inv H rec schema slot node w x kg w' :
  visit H rec schema slot node w = Some (x, kg, w') ->
  (getRefValue (store w) node = None /\ x = node /\ kg = true /\ w' = w)
  \/ exists refVal, getRefValue (store w) node = Some refVal
     /\ ((fst (addToHistory (st w) (getRefType H (store w) node) refVal) = false
          /\ x = node /\ kg = false
          /\ w' = set_store (update slot node (store w))
                    (set_st (set_error
                               (CircularRefsFound (circularRefs (st w) ++ [refVal]))
                               (set_circular refVal (st w))) w))
         \/ exists s1 nv w1,
              addToHistory (st w) (getRefType H (store w) node) refVal = (true, s1)
              /\ getRefSchema H rec refVal (getRefType H (store w) node) schema
                   (set_st (setCurrent s1 (getRefType H (store w) node) refVal) w)
                 = Some (nv, w1)
              /\ (x, kg, w') = visit_finish slot node refVal nv w1).
Proof.
  unfold visit.
  destruct (getRefValue (store w) node) as [refVal|]; [|intros [= <- <- <-]; by left].
  intros Hv. right. exists refVal. split; [reflexivity|]. revert Hv.
  destruct (addToHistory (st w) (getRefType H (store w) node) refVal) as [addOk s1] eqn:Ea.
  destruct addOk; cbn [negb fst].
  - destruct (getRefSchema H rec refVal _ schema _) as [[nv w1]|] eqn:Eg;
      [|discriminate].
    intros Hv. right. exists s1, nv, w1. split; [reflexivity|]. split; [exact Eg|].
    unfold visit_finish. destruct nv; injection Hv as <- <- <-; reflexivity.
  - intros Hv. left. assert (s1 = st w) as ->.
    { unfold addToHistory in Ea. destruct (getRefType H (store w) node);
        repeat match type of Ea with
               | (if ?c then _ else _) = _ => destruct c
               | match (if ?c then _ else _) with _ => _ end = _ => destruct c
               end; by inversion Ea. }
    by inversion Hv.
Qed.

Lemma visit_finish_frame slot node refVal nv w x kg w' :
  (x, kg, w') = visit_finish slot node refVal nv w ->
  opts w' = opts w /\ cache w' = cache w /\ loads w' = loads w
  /\ history (st w') = removelast (history (st w))
  /\ cwd (st w') = cwd (st w)
  /\ circular (st w') = circular (st w)
  /\ (error_ (st w') = error_ (st w) \/ error_ (st w') = Some (MissingRef refVal)).
Proof.
  unfold visit_finish. destruct nv as [nv|]; cbn zeta; cbn [st set_st opts missing history_pop
    set_history].
  - destruct (Str.mem refVal _); intros [= -> -> ->]; cbn; auto 10.
  - destruct (Str.mem refVal _); cbn [opts set_st];
      destruct (failOnMissing (opts w)); intros [= -> -> ->]; cbn; auto 10.
Qed.

Lemma getRefSchema_inv H rec refVal type schema w0 nv w1 :
  getRefSchema H rec refVal type schema w0 = Some (nv, w1) ->
  (type <> File /\ w1 = w0)
  \/ (type = File /\ exists lv wf,
        file_value H rec refVal w0 = Some (lv, wf)
        /\ (nv, w1) = pick_value refVal (full_path H refVal w0) lv wf).
Proof.
  unfold getRefSchema, getRefSchema_file. destruct type.
  - intros [= _ <-]. by left.
  - destruct (file_value H rec refVal w0) as [[lv wf]|]; [|discriminate].
    intros [= E]. right. split; [reflexivity|]. exists lv, wf. split; [reflexivity|].
    by rewrite E.
  - intros [= _ <-]. by left.
Qed.

Lemma pick_value_loads refVal full lv w :
  loads (snd (pick_value refVal full lv w)) = loads w.
Proof.
  unfold pick_value. destruct lv as [lv|]; [|reflexivity].
  destruct (truthy lv); [|reflexivity]. cbn zeta.
  destruct (Str.nonempty full && _), (Str.has_hash refVal); reflexivity.
Qed.

Lemma split_aux_head c : forall s cur,
  exists h t, Str.split_aux c cur s = h :: t
              /\ (Str.nonempty cur = true -> Str.nonempty h = true).
Proof.
  induction s as [|a s IH]; intros cur; simpl; [eauto|].
  destruct (Ascii.eqb a c); [eauto|].
  destruct (IH (cur +++ String a "")) as (h & t & -> & Hh).
  exists h, t. split; [reflexivity|]. intros _. apply Hh. by destruct cur.
Qed.

(** The file path of a reference string that neither is empty nor starts
    with [#] is not empty. *)
Lemma getRefFilePath_nonempty refVal :
  Str.nonempty refVal = true -> Str.starts_with_hash refVal = false ->
  Str.nonempty (getRefFilePath refVal) = true.
Proof.
  intros Hne Hh. unfold getRefFilePath, Str.split.
  destruct refVal as [|a r]; [discriminate|]. simpl in *. rewrite Hh.
  destruct (split_aux_head "#" r (String a "")) as (h & t & -> & Hhd). by apply Hhd.
Qed.

Lemma file_type_path_nonempty H h node refVal :
  is_file_ref H "" = false ->
  getRefValue h node = Some refVal ->
  getRefType H h node = File ->
  Str.nonempty (getRefFilePath refVal) = true.
Proof.
  intros Hhost Hv. unfold getRefType. rewrite Hv.
  destruct (Str.starts_with_hash refVal) eqn:Eh; [discriminate|].
  destruct (is_file_ref H refVal) eqn:Ef; [|discriminate]. intros _.
  apply getRefFilePath_nonempty; [|exact Eh].
  destruct refVal; [congruence|reflexivity].
Qed.

Lemma setCurrent_history s t v : history (setCurrent s t v) = history s.
Proof. unfold setCurrent. destruct t; try reflexivity. by destruct (Str.nonempty _). Qed.

Lemma file_entry_history H refVal doc w :
  history (st (file_entry H refVal doc w)) = history (st w).
Proof. unfold file_entry. cbn zeta. by destruct (Str.nonempty _). Qed.

Lemma file_exit_history H refVal w w2 :
  history (st (file_exit H refVal w w2)) = history (st w2).
Proof. unfold file_exit. by destruct (_ && _). Qed.

Lemma visit_history H (Hhost : is_file_ref H "" = false) rec schema slot node w x kg w' :
  respects (fun a b => history (st b) = history (st a)) rec ->
  visit H rec schema slot node w = Some (x, kg, w') ->
  history (st w') = history (st w).
Proof.
  intros Hrec Hv.
  apply visit_inv in Hv
    as [(_ & _ & _ & ->)|(refVal & Hg & [(_ & _ & _ & ->)|(s1 & nv & w1 & Ha & Hs & Hf)])];
    try reflexivity.
  apply visit_finish_frame in Hf as (_ & _ & _ & -> & _).
  assert (Hpath : getRefType H (store w) node = File ->
                  Str.nonempty (getRefFilePath refVal) = true)
    by (intros; by eapply file_type_path_nonempty).
  destruct (addToHistory_accepts _ _ _ _ Ha Hpath) as (dest & _ & _ & _ & _ & ->).
  assert (history (st w1) = history (st w) ++ [Str.toLowerCase dest]) as ->;
    [|apply removelast_last].
  apply getRefSchema_inv in Hs as [[_ ->]|(_ & lv & wf & Hfv & Hp)].
  { cbn [st set_st]. by rewrite setCurrent_history. }
  apply (f_equal snd) in Hp. simpl in Hp. subst w1. rewrite pick_value_st.
  assert (Hentry : history (st (set_st (setCurrent
            (set_history (history (st w) ++ [Str.toLowerCase dest]) (st w))
            (getRefType H (store w) node) refVal) w))
          = history (st w) ++ [Str.toLowerCase dest])
    by (cbn [st set_st]; by rewrite setCurrent_history).
  apply file_value_inv in Hfv
    as [(_ & _ & ->)|(_ & [(_ & _ & ->)|(doc & _ & [(_ & _ & ->)|(_ & lv' & w2 & Hr & _ & ->)])])];
    try exact Hentry.
  rewrite file_exit_history, (Hrec _ _ _ _ Hr), file_entry_history. exact Hentry.
Qed.

(** X7: every push on the history is undone by the pop that follows: when
    [derefSchema] returns, with all the documents it loaded and resolved on
    the way, [state.history] is what it was on entry (for a host that does
    not take the empty reference string for a file). *)
Theorem derefSchema_restores_history (H : host) (fuel : nat) (schema : val) (w : world)
    (x : val) (w' : world) :
  is_file_ref H "" = false ->
  derefSchema H fuel schema w = Some (x, w') ->
  history (st w') = history (st w).
Proof.
  intros Hhost.
  apply (derefSchema_respects H (fun a b => history (st b) = history (st a))).
  - reflexivity.
  - intros a b c Hab Hbc. congruence.
  - intros rec sch slot node w0 x0 kg w0'. apply visit_history. exact Hhost.
Qed.

Lemma derefSchema_restores_history_witness :
  let H := Posix.host_of nested_files in
  let w0 := snd (initial_world H fresh_process nested_doc
                                (mkOptions (Some "/work/rel") false)) in
  let w := set_st (set_history ["main.json"] (st w0)) w0 in
  exists x w', derefSchema H 4 (VPtr 1) w = Some (x, w')
               /\ history (st w') = ["main.json"]
               /\ length (loads w') = 2.
Proof.
  intros H w0 w.
  destruct (derefSchema H 4 (VPtr 1) w) as [[x w']|] eqn:E;
    [|vm_compute in E; discriminate].
  exists x, w'. split; [reflexivity|]. split.
  - apply (derefSchema_restores_history H 4 (VPtr 1) w x w'); [reflexivity|exact E].
  - vm_compute in E. inversion E. subst. reflexivity.
Defined.

Lemma addToHistory_frame s t v :
  cwd (snd (addToHistory s t v)) = cwd s
  /\ error_ (snd (addToHistory s t v)) = error_ s
  /\ circular (snd (addToHistory s t v)) = circular s.
Proof.
  unfold addToHistory.
  destruct t; repeat match goal with
                     | |- context [if ?c then _ else _] => destruct c
                     end; auto.
Qed.

Lemma setCurrent_frame s t v :
  cwd (setCurrent s t v) = cwd s
  /\ error_ (setCurrent s t v) = error_ s
  /\ circular (setCurrent s t v) = circular s.
Proof. unfold setCurrent. destruct t; auto. destruct (Str.nonempty _); auto. Qed.










Lemma keeps_options_refl w : keeps_options w w.
Proof. by split. Qed.

Lemma keeps_options_trans a b c :
  keeps_options a b -> keeps_options b c -> keeps_options a c.
Proof.
  intros [Hf1 Hb1] [Hf2 Hb2]. split; [congruence|].
  intros Ha. destruct (Hb1 Ha) as [Ho Hc].
  assert (Hb : base_in_step b).
  { destruct Ha as [Ha1 Ha2]. split; congruence. }
  destruct (Hb2 Hb). split; congruence.
Qed.

Lemma keeps_options_eq w w' :
  opts w' = opts w -> cwd (st w') = cwd (st w) -> keeps_options w w'.
Proof. intros Ho Hc. split; [by rewrite Ho|auto]. Qed.

Lemma file_bracket_keeps_options H refVal doc w w2 :
  keeps_options (file_entry H refVal doc w) w2 ->
  keeps_options w (file_exit H refVal w w2).
Proof.
  unfold file_entry, file_exit. cbn zeta. cbn [st set_store add_load].
  destruct (Str.nonempty (ref_dirname H refVal)); cbn [andb].
  - intros [Hf _]. cbn [opts set_base set_opts set_st set_store add_load failOnMissing]
      in Hf.
    destruct (Str.nonempty (cwd (st w))) eqn:En.
    + split; cbn [opts set_base set_opts set_st st cwd set_cwd failOnMissing];
        [exact Hf|].
      intros [Hb _]. split; [|reflexivity].
      rewrite Hf. destruct (opts w) as [b f]. cbn in *. by rewrite Hb.
    + split; [exact Hf|]. intros [_ Hn]. congruence.
  - intros [Hf Hb]. split; [exact Hf|]. intros Ha. by apply Hb.
Qed.

Lemma visit_keeps_options H rec schema slot node w x kg w' :
  respects keeps_options rec ->
  visit H rec schema slot node w = Some (x, kg, w') -> keeps_options w w'.
Proof.
  intros Hrec Hv.
  apply visit_inv in Hv
    as [(_ & _ & _ & ->)|(refVal & Hg & [(_ & _ & _ & ->)|(s1 & nv & w1 & Ha & Hs & Hf)])];
    try (by apply keeps_options_eq).
  apply visit_finish_frame in Hf as (Ho & _ & _ & _ & Hc & _).
  apply keeps_options_trans with w1; [|by apply keeps_options_eq].
  set (w0 := set_st (setCurrent s1 (getRefType H (store w) node) refVal) w) in *.
  assert (H0 : keeps_options w w0).
  { apply keeps_options_eq; [reflexivity|]. subst w0. cbn [st set_st].
    destruct (setCurrent_frame s1 (getRefType H (store w) node) refVal) as [-> _].
    pose proof (addToHistory_frame (st w) (getRefType H (store w) node) refVal) as [Hc' _].
    by rewrite Ha in Hc'. }
  apply keeps_options_trans with w0; [exact H0|]. clear H0.
  apply getRefSchema_inv in Hs as [[_ ->]|(_ & lv & wf & Hfv & Hp)];
    [apply keeps_options_refl|].
  apply (f_equal snd) in Hp. simpl in Hp. subst w1.
  apply keeps_options_trans with wf;
    [|apply keeps_options_eq; [apply pick_value_opts|by rewrite pick_value_st]].
  apply file_value_inv in Hfv
    as [(_ & _ & ->)|(_ & [(_ & _ & ->)|(doc & _ & [(_ & _ & ->)|(_ & lv' & w2 & Hr & _ & ->)])])];
    try (by apply keeps_options_eq).
  apply (file_bracket_keeps_options H refVal doc). by eapply Hrec.
Qed.

Lemma derefSchema_keeps_options H fuel : respects keeps_options (derefSchema H fuel).
Proof.
  apply derefSchema_respects.
  - apply keeps_options_refl.
  - apply keeps_options_trans.
  - intros rec schema slot node w x kg w'. apply visit_keeps_options.
Qed.

Lemma deref_after H fuel p d o out :
  deref H fuel p d o = Some out ->
  exists x, derefSchema H fuel (fst (initial_world H p d o)) (snd (initial_world H p d o))
            = Some (x, after out).
Proof.
  unfold deref. destruct (initial_world H p d o) as [b w]. cbn [fst snd].
  destruct (derefSchema H fuel b w) as [[ret w']|]; [|discriminate].
  intros E. exists ret. destruct ret; try (by injection E as <-);
    destruct (error_ (st w')); by injection E as <-.
Qed.

Lemma initial_world_opts H p d o :
  opts (snd (initial_world H p d o)) = defaults H o.
Proof. unfold initial_world. by destruct (alloc d []). Qed.

Lemma initial_world_cwd H p d o :
  cwd (st (snd (initial_world H p d o)))
  = let bf := match baseFolder (defaults H o) with Some b => b | None => "" end in
    if isAbsolute H bf then bf else path_resolve H (process_cwd H) bf.
Proof. unfold initial_world. by destruct (alloc d []). Qed.

(** X9: [deref] never changes [failOnMissing] of the options object it is
    given, and when [baseFolder] is given as a non-empty absolute path the
    whole options object is, after the call, what the caller passed: every
    move to the folder of a loaded file has been undone. *)
Theorem deref_restores_absolute_base_folder (H : host) (fuel : nat) (p : process)
    (d : json) (o : options) (out : outcome) :
  deref H fuel p d o = Some out ->
  failOnMissing (opts (after out)) = failOnMissing o
  /\ forall bf, baseFolder o = Some bf -> isAbsolute H bf = true ->
                Str.nonempty bf = true ->
                opts (after out) = o /\ cwd (st (after out)) = bf.
Proof.
  intros E. apply deref_after in E as [x E].
  apply derefSchema_keeps_options in E as [Hf Hb].
  rewrite initial_world_opts in Hf. split.
  { rewrite Hf. unfold defaults. by destruct (baseFolder o). }
  intros bf Ho Ha Hn.
  assert (Hd : defaults H o = o) by (unfold defaults; by rewrite Ho).
  assert (Hc : cwd (st (snd (initial_world H p d o))) = bf).
  { rewrite initial_world_cwd, Hd, Ho. cbn zeta. by rewrite Ha. }
  destruct Hb as [Ho' Hc'].
  { split; rewrite Hc; [|exact Hn]. by rewrite initial_world_opts, Hd. }
  rewrite initial_world_opts, Hd in Ho'. split; congruence.
Qed.

Lemma deref_restores_absolute_base_folder_witness :
  let H := Posix.host_of nested_files in
  let o := mkOptions (Some "/work/rel") false in
  exists out, deref H 5 fresh_process nested_doc o = Some out
              /\ length (loads (after out)) = 2
              /\ opts (after out) = o.
Proof.
  intros H o.
  destruct (deref H 5 fresh_process nested_doc o) as [out|] eqn:E;
    [|vm_compute in E; discriminate].
  exists out. split; [reflexivity|]. split.
  - vm_compute in E. inversion E. subst. reflexivity.
  - by apply (proj2 (deref_restores_absolute_base_folder H 5 fresh_process nested_doc o
                       out E) "/work/rel").
Defined.

Lemma keeps_failure_refl w : keeps_failure w w.
Proof. unfold keeps_failure. auto. Qed.

Lemma keeps_failure_trans a b c :
  keeps_failure a b -> keeps_failure b c -> keeps_failure a c.
Proof. unfold keeps_failure. intros (? & ? & ?) (? & ? & ?). auto 10. Qed.

Lemma keeps_failure_step w w' :
  circular (st w') = circular (st w) ->
  (error_ (st w') = error_ (st w) \/ exists e, error_ (st w') = Some e) ->
  keeps_failure w w'.
Proof.
  unfold keeps_failure. intros -> [->|[e ->]]; auto.
Qed.

Lemma file_entry_failure H refVal doc w :
  circular (st (file_entry H refVal doc w)) = circular (st w)
  /\ error_ (st (file_entry H refVal doc w)) = error_ (st w).
Proof. unfold file_entry. cbn zeta. by destruct (Str.nonempty _). Qed.

Lemma file_exit_failure H refVal w w2 :
  circular (st (file_exit H refVal w w2)) = circular (st w2)
  /\ error_ (st (file_exit H refVal w w2)) = error_ (st w2).
Proof. unfold file_exit. by destruct (_ && _). Qed.

Lemma visit_keeps_failure H rec schema slot node w x kg w' :
  respects keeps_failure rec ->
  visit H rec schema slot node w = Some (x, kg, w') -> keeps_failure w w'.
Proof.
  intros Hrec Hv.
  apply visit_inv in Hv
    as [(_ & _ & _ & ->)|(refVal & Hg & [(_ & _ & _ & ->)|(s1 & nv & w1 & Ha & Hs & Hf)])].
  - apply keeps_failure_refl.
  - unfold keeps_failure. cbn. repeat split; auto; discriminate.
  - apply visit_finish_frame in Hf as (_ & _ & _ & _ & _ & Hc & He).
    apply keeps_failure_trans with w1;
      [|apply keeps_failure_step; [exact Hc|destruct He; eauto]].
    set (w0 := set_st (setCurrent s1 (getRefType H (store w) node) refVal) w) in *.
    assert (H0 : keeps_failure w w0).
    { destruct (setCurrent_frame s1 (getRefType H (store w) node) refVal)
        as (_ & He0 & Hc0).
      pose proof (addToHistory_frame (st w) (getRefType H (store w) node) refVal)
        as (_ & He1 & Hc1).
      rewrite Ha in He1, Hc1. cbn [snd] in He1, Hc1.
      apply keeps_failure_step; subst w0; cbn [st set_st]; [|left]; congruence. }
    apply keeps_failure_trans with w0; [exact H0|]. clear H0.
    apply getRefSchema_inv in Hs as [[_ ->]|(_ & lv & wf & Hfv & Hp)];
      [apply keeps_failure_refl|].
    apply (f_equal snd) in Hp. simpl in Hp. subst w1.
    apply keeps_failure_trans with wf;
      [|apply keeps_failure_step; rewrite pick_value_st; auto].
    apply file_value_inv in Hfv
      as [(_ & _ & ->)|(_ & [(_ & _ & ->)|(doc & _ & [(_ & _ & ->)|(_ & lv' & w2 & Hr & _ & ->)])])];
      try (apply keeps_failure_step; cbn; by auto).
    apply keeps_failure_trans with (file_entry H refVal doc w0);
      [destruct (file_entry_failure H refVal doc w0); apply keeps_failure_step; auto|].
    apply keeps_failure_trans with w2; [by eapply Hrec|].
    destruct (file_exit_failure H refVal w0 w2). apply keeps_failure_step; auto.
Qed.

Lemma derefSchema_keeps_failure H fuel : respects keeps_failure (derefSchema H fuel).
Proof.
  apply derefSchema_respects.
  - apply keeps_failure_refl.
  - apply keeps_failure_trans.
  - intros rec schema slot node w x kg w'. apply visit_keeps_failure.
Qed.

Lemma deref_reports_error H fuel p d o out :
  deref H fuel p d o = Some out ->
  error_ (st (after out)) <> None -> exists e, returned out = VErr e.
Proof.
  unfold deref. destruct (initial_world H p d o) as [b w].
  destruct (derefSchema H fuel b w) as [[ret w']|]; [|discriminate].
  intros E. destruct ret; try (injection E as <-; eauto);
    destruct (error_ (st w')) eqn:Ee; injection E as <-; cbn; intros Hn; eauto;
    by rewrite Ee in Hn.
Qed.

Lemma initial_world_flags H p d o :
  circular (st (snd (initial_world H p d o))) = false
  /\ error_ (st (snd (initial_world H p d o))) = None
  /\ history (st (snd (initial_world H p d o))) = [].
Proof. unfold initial_world. by destruct (alloc d []). Qed.

(** X10: when the history check of [derefSchema] trips anywhere, in the
    document or in a file loaded for it, so that [state.circular] is set
    when the walk is over, [deref] returns an [Error], not a document. *)
Theorem circular_flag_is_reported (H : host) (fuel : nat) (p : process) (d : json)
    (o : options) (out : outcome) :
  deref H fuel p d o = Some out ->
  circular (st (after out)) = true ->
  exists e, returned out = VErr e.
Proof.
  intros E Hc. apply (deref_reports_error _ _ _ _ _ _ E).
  apply deref_after in E as [x E].
  apply derefSchema_keeps_failure in E as (_ & _ & Hk).
  destruct (initial_world_flags H p d o) as (Hc0 & He0 & _).
  apply Hk; [|exact Hc]. rewrite Hc0. discriminate.
Qed.

Lemma circular_flag_is_reported_witness :
  let H := Posix.host_of loop_files in
  exists out e, deref H 5 fresh_process loop_doc no_options = Some out
                /\ circular (st (after out)) = true
                /\ returned out = VErr e.
Proof.
  intros H.
  destruct (deref H 5 fresh_process loop_doc no_options) as [out|] eqn:E;
    [|vm_compute in E; discriminate].
  assert (Hc : circular (st (after out)) = true)
    by (vm_compute in E; inversion E; subst; reflexivity).
  destruct (circular_flag_is_reported H 5 fresh_process loop_doc no_options out E Hc)
    as [e He].
  exists out, e. auto.
Defined.

Lemma derefSchema_no_reference H fuel v j w :
  repr (store w) v j -> no_reference j = true -> depth j < fuel ->
  circular (st w) = false -> error_ (st w) = None ->
  derefSchema H fuel v w = Some (v, w).
Proof.
  intros Hr Hn Hd Hc He. destruct fuel as [|f]; [lia|].
  rewrite derefSchema_S. unfold derefSchema_body.
  destruct (checkLocalCircular_alloc H (S f) _ v j Hr Hd) as (locals & -> & Hm).
  assert (locals = []) as ->.
  { destruct locals as [|e l]; [reflexivity|]. exfalso.
    destruct (proj1 (Hm e) (or_introl eq_refl)) as (q & r & [Hq _] & _).
    pose proof (every_ref_at _ q j r Hn Hq). discriminate. }
  cbn [check_locals]. rewrite Hc, He.
  by apply walker_no_reference with j.
Qed.

Lemma truthy_repr h v j h' : repr h v j -> truthy v = truthy (fst (alloc j h')).
Proof.
  intros Hr. inversion Hr; subst; try reflexivity; cbn [alloc].
  - by destruct ((fix go (l : list json) (h : heap) : list val * heap := _) items h').
  - by destruct ((fix go (l : list (string * json)) (h : heap)
                    : list (string * val) * heap := _) fields h').
Qed.

Lemma file_value_load H rec refVal w doc lv' w2 :
  truthy_opt (assoc (full_path H refVal w) (cache w)) = false ->
  fileLoader H refVal (opts w) = Some doc ->
  truthy (fst (alloc doc (store w))) = true ->
  rec (fst (alloc doc (store w))) (file_entry H refVal doc w) = Some (lv', w2) ->
  file_value H rec refVal w = Some (Some lv', file_exit H refVal w w2).
Proof.
  unfold file_value, file_entry, file_exit, ref_dirname. cbn zeta.
  intros -> Hl. cbn [opts store add_load st]. rewrite Hl.
  destruct (alloc doc (store w)) as [v0 h]. cbn [fst snd]. intros ->.
  cbn [st set_store add_load].
  destruct (Str.nonempty (if String.eqb _ "." then "" else _)); cbn [andb].
  - intros ->. cbn [st set_store add_load]. by destruct (Str.nonempty (cwd (st w))).
  - by intros ->.
Qed.

Lemma visit_resolved H rec schema slot node w refVal s1 nv w1 :
  getRefValue (store w) node = Some refVal ->
  addToHistory (st w) (getRefType H (store w) node) refVal = (true, s1) ->
  getRefSchema H rec refVal (getRefType H (store w) node) schema
    (set_st (setCurrent s1 (getRefType H (store w) node) refVal) w) = Some (nv, w1) ->
  visit H rec schema slot node w = Some (visit_finish slot node refVal nv w1).
Proof.
  intros Hg Ha Hs. unfold visit, visit_finish. rewrite Hg, Ha. cbn [negb].
  rewrite Hs. by destruct nv.
Qed.

Lemma file_entry_proj H refVal doc w :
  store (file_entry H refVal doc w) = snd (alloc doc (store w))
  /\ cache (file_entry H refVal doc w) = cache w
  /\ loads (file_entry H refVal doc w)
     = loads w ++ [mkLoad refVal (opts w) (full_path H refVal w)]
  /\ missing (st (file_entry H refVal doc w)) = missing (st w).
Proof. unfold file_entry. cbn zeta. by destruct (Str.nonempty _). Qed.

Lemma file_exit_proj H refVal w w2 :
  store (file_exit H refVal w w2) = store w2
  /\ cache (file_exit H refVal w w2) = cache w2
  /\ loads (file_exit H refVal w w2) = loads w2
  /\ missing (st (file_exit H refVal w w2)) = missing (st w2).
Proof. unfold file_exit. by destruct (_ && _). Qed.

Lemma addToHistory_file_fresh s v :
  history s = [] ->
  fst (addToHistory s File v) = true
  /\ missing (snd (addToHistory s File v)) = missing s.
Proof.
  unfold addToHistory. intros ->. cbn. by destruct (Str.nonempty _).
Qed.

Lemma setCurrent_missing s t v : missing (setCurrent s t v) = missing s.
Proof. unfold setCurrent. destruct t; auto. by destruct (Str.nonempty _). Qed.

Lemma tree_step_child j seg j' :
  tree_step j seg = Some j' -> exists k, child_of j k = Some j'.
Proof.
  destruct j; try discriminate; simpl.
  - destruct (find _ _) as [i|]; [|discriminate]. intros Hi. by exists (KIdx i).
  - intros Hi. by exists (KProp seg).
Qed.

Lemma tree_walk_sub P : forall segs j j',
  tree_walk j segs = Some j' -> every_ref P j = true ->
  every_ref P j' = true /\ depth j' <= depth j.
Proof.
  induction segs as [|seg segs IH]; intros j j'; simpl.
  - intros [= <-]. auto.
  - destruct (tree_step j seg) as [j1|] eqn:E; [|discriminate]. intros Hw Hn.
    destruct (tree_step_child _ _ _ E) as [k Hk].
    destruct (IH j1 j' Hw (every_ref_child P j k j1 Hn Hk)) as [Hn' Hd'].
    pose proof (depth_child _ _ _ Hk). split; [exact Hn'|lia].
Qed.

Lemma file_target_sub r doc tgt :
  file_target r doc = Some tgt -> no_reference doc = true ->
  no_reference tgt = true /\ depth tgt <= depth doc.
Proof.
  unfold file_target. destruct (Str.has_hash r).
  - apply tree_walk_sub.
  - intros [= <-]. auto.
Qed.

(** X11: a reference to a file that the loader finds is replaced by what it
    selects there.  For a document that is one file reference [r], the file
    holding a truthy document [doc] without references, [deref] returns the
    document [r] selects in [doc] -- [doc] itself, or what the pointer after
    [#] leads to, when that is truthy --, keeps [doc] as a whole in the cache
    under the full path of the file, has called the loader once and records
    nothing as missing. *)
Theorem file_reference_resolves (H : host) (p : process) (o : options)
    (r : string) (doc tgt : json) (fuel : nat) :
  Str.starts_with_hash r = false -> is_file_ref H r = true ->
  fileLoader H r (defaults H o) = Some doc ->
  truthy (fst (alloc doc [])) = true ->
  no_reference doc = true -> S (depth doc) < fuel ->
  file_target r doc = Some tgt ->
  truthy (fst (alloc tgt [])) = true ->
  exists out, deref H fuel p (ref r) o = Some out
    /\ returned_doc out = Some tgt
    /\ (let full := full_path H r (snd (initial_world H p (ref r) o)) in
        if Str.nonempty full
        then exists lv, cache (after out) = [(full, lv)]
                        /\ reify (S (length (store (after out)))) (store (after out)) lv
                           = Some doc
        else cache (after out) = [])
    /\ loads (after out)
       = [mkLoad r (defaults H o) (full_path H r (snd (initial_world H p (ref r) o)))]
    /\ missing (st (after out)) = [] /\ error_ (st (after out)) = None.
Proof.
  intros Hs Hf Hl Ht Hn Hd Htg Htt.
  destruct fuel as [|[|f]]; [lia|lia|].
  assert (Hinit : exists w0, initial_world H p (ref r) o = (VPtr 0, w0)
            /\ store w0 = [CObj [("$ref", VStr r)]] /\ cache w0 = []
            /\ opts w0 = defaults H o /\ loads w0 = []
            /\ circular (st w0) = false /\ error_ (st w0) = None
            /\ history (st w0) = [] /\ missing (st w0) = [])
    by (eexists; split; [reflexivity|]; cbn; auto 10).
  destruct Hinit as (w0 & E0 & Hst & Hca & Hop & Hlo & Hci & Her & Hhi & Hmi).
  unfold deref. rewrite E0. cbn [snd]. rewrite <- Hop in *.
  rewrite derefSchema_S. unfold derefSchema_body.
  assert (Hg : getRefValue (store w0) (VPtr 0) = Some r) by (by rewrite Hst).
  assert (Hty : getRefType H (store w0) (VPtr 0) = File)
    by (unfold getRefType; by rewrite Hg, Hs, Hf).
  assert (Hck : checkLocalCircular H (S (S f)) (store w0) (VPtr 0) = Some None).
  { unfold checkLocalCircular. cbn [scan]. unfold collect_local. rewrite Hg, Hty.
    rewrite Hst. cbn. reflexivity. }
  rewrite Hck, Hci, Her.
  destruct (addToHistory_file_fresh (st w0) r Hhi) as [Hok Hm1].
  destruct (addToHistory (st w0) File r) as [ok s1] eqn:Ea. cbn [fst snd] in Hok, Hm1.
  subst ok.
  set (we := set_st (setCurrent s1 File r) w0).
  destruct (alloc_repr doc (store we)) as (new & Eh & Hr & Hb).
  set (lv := fst (alloc doc (store we))) in *.
  set (wE := file_entry H r doc we).
  destruct (file_entry_proj H r doc we) as (HsE & HcE & HlE & HmE).
  destruct (file_entry_failure H r doc we) as [HciE HerE].
  destruct (setCurrent_frame s1 File r) as (Hcw & He1 & Hc1).
  pose proof (addToHistory_frame (st w0) File r) as (Hcw0 & He0 & Hc0).
  rewrite Ea in Hcw0, He0, Hc0. cbn [snd] in Hcw0, He0, Hc0.
  assert (Hrec : derefSchema H (S f) lv wE = Some (lv, wE)).
  { apply derefSchema_no_reference with doc; auto; [| lia | |].
    - fold wE in HsE. rewrite HsE, Eh. exact Hr.
    - fold wE in HciE. rewrite HciE. cbn [we st set_st]. congruence.
    - fold wE in HerE. rewrite HerE. cbn [we st set_st]. congruence. }
  assert (Hfull : full_path H r we = full_path H r w0).
  { unfold full_path. cbn [we st set_st]. by rewrite Hcw, Hcw0. }
  assert (Htl : truthy lv = true) by (by rewrite (truthy_repr _ _ _ [] Hr)).
  assert (Hfv : file_value H (derefSchema H (S f)) r we
                = Some (Some lv, file_exit H r we wE)).
  { apply (file_value_load H _ r we doc); auto. cbn [we cache set_st]. by rewrite Hca. }
  set (wX := file_exit H r we wE) in *.
  destruct (file_exit_proj H r we wE) as (HsX & HcX & HlX & HmX).
  destruct (file_exit_failure H r we wE) as [HciX HerX].
  fold wX in HsX, HcX, HlX, HmX, HciX, HerX.
  assert (Hcwe : cache we = []) by (cbn [we cache set_st]; exact Hca).
  set (wP := if Str.nonempty (full_path H r w0)
             then set_cache [(full_path H r w0, lv)] wX else wX).
  assert (HwP : store wP = store wX /\ st wP = st wX /\ loads wP = loads wX
                /\ cache wP = if Str.nonempty (full_path H r w0)
                              then [(full_path H r w0, lv)] else []).
  { subst wP. destruct (Str.nonempty _); cbn; repeat split; auto.
    fold wE in HcE. by rewrite HcX, HcE. }
  destruct HwP as (HsP & HstP & HlP & HcP).
  assert (HrP : repr (store wP) lv doc).
  { fold wE in HsE. by rewrite HsP, HsX, HsE, Eh. }
  assert (Hp : exists nv, pick_value r (full_path H r we) (Some lv) wX = (Some nv, wP)
                          /\ repr (store wP) nv tgt).
  { unfold pick_value. rewrite Htl, Hfull, HcX. fold wE in HcE. rewrite HcE, Hcwe.
    cbn [assoc truthy_opt negb assoc_put app]. rewrite andb_true_r. fold wP.
    unfold file_target in Htg. destruct (Str.has_hash r).
    - unfold resolve_pointer in Htg. unfold getRefPathValue.
      pose proof (walk_segments_repr (store wP)
                    (pointer_segments (nth 1 (Str.split "#" r) "")) lv doc HrP) as Hw.
      rewrite Htg in Hw.
      destruct (walk_segments (store wP) lv _) as [nv|]; [|contradiction].
      exists nv. split; [|exact Hw]. cbn [truthy_opt].
      by rewrite (truthy_repr _ _ _ [] Hw), Htt.
    - injection Htg as <-. eauto. }
  destruct Hp as (nv & Hp & Hrn).
  assert (Hv : visit H (derefSchema H (S f)) (VPtr 0) None (VPtr 0) w0
               = Some (visit_finish None (VPtr 0) r (Some nv) wP)).
  { apply visit_resolved with s1; [exact Hg|by rewrite Hty|rewrite Hty].
    unfold getRefSchema, getRefSchema_file. fold we. by rewrite Hfv, Hp. }
  assert (HmP : missing (st wP) = []).
  { fold wE in HmE. rewrite HstP, HmX, HmE. cbn [we st set_st].
    by rewrite setCurrent_missing, Hm1. }
  destruct (visit_finish None (VPtr 0) r (Some nv) wP) as [[x kg] wf] eqn:Efin.
  unfold visit_finish in Efin. cbn zeta in Efin.
  cbn [st set_st set_store missing history_pop set_history update] in Efin.
  rewrite HmP in Efin. change (Str.mem r []) with false in Efin. cbv iota in Efin.
  injection Efin as Ex Ek Ew. subst x kg.
  assert (Hwf : store wf = store we ++ new
                /\ cache wf = (if Str.nonempty (full_path H r w0)
                               then [(full_path H r w0, lv)] else [])
                /\ loads wf = [mkLoad r (opts w0) (full_path H r w0)]
                /\ missing (st wf) = [] /\ error_ (st wf) = None).
  { rewrite <- Ew. cbn [store cache loads st set_st set_store missing error_ history_pop
                         set_history].
    fold wE in HsE, HlE. rewrite HsP, HsX, HsE, Eh, HcP, HlP, HlX, HlE, HmP, HstP, HerX.
    fold wE in HerE. rewrite HerE, Hfull. cbn [we st set_st loads opts].
    rewrite Hlo, He1, He0, Her. auto. }
  clear Ew. destruct Hwf as (Hsf & Hcf & Hlf & Hmf & Hef).
  assert (Hrl : repr (store wf) lv doc) by (by rewrite Hsf).
  assert (Hbl : below (length (store wf)) lv) by (by rewrite Hsf).
  assert (Hrel : reify (S (length (store wf))) (store wf) lv = Some doc).
  { apply reify_repr; [exact Hrl|]. by apply (repr_reify_bound (store wf) lv doc). }
  destruct (file_target_sub r doc tgt Htg Hn) as [Hnt Hdt].
  assert (Hrf : repr (store wf) nv tgt).
  { fold wE in HsE. rewrite Hsf, <- Eh, <- HsE, <- HsX, <- HsP. exact Hrn. }
  assert (Hre : reify (S (length (store wf))) (store wf) nv = Some tgt).
  { apply reify_repr; [exact Hrf|].
    pose proof (repr_reify_bound (store wf) lv doc Hrl Hbl). lia. }
  assert (Hne : val_eqb (VPtr 0) nv = false).
  { destruct nv as [| | | | |a] eqn:El; try reflexivity. destruct a; [|reflexivity].
    pose proof (getRefValue_repr _ _ _ Hrf) as Hgv.
    rewrite (every_ref_tree_ref tgt Hnt) in Hgv.
    rewrite Hsf in Hgv. cbn [we store set_st] in Hgv. rewrite Hst in Hgv.
    discriminate. }
  assert (Hdf : depth tgt < S f) by lia.
  clear Hrec Hfv Hd. remember (S f) as f1 eqn:Ef1.
  cbn [walker]. rewrite Hv. cbn [negb is_circular existsb].
  assert (Hwalk : match nv with
      | VPtr a =>
          match
            match option_map objectKeys (store w0 !! 0) with
            | Some ks =>
                if val_eqb (VPtr 0) nv
                then Some ks
                else option_map objectKeys (store wf !! a)
            | None => option_map objectKeys (store wf !! a)
            end
          with
          | Some keys =>
              option_map (pair nv)
                ((fix go (keys0 : list key) (w : world) {struct keys0} :
                      option world :=
                    match keys0 with
                    | [] => Some w
                    | k :: r0 =>
                        match store w !! a with
                        | Some c =>
                            match cell_get c k with
                            | Some child =>
                                match
                                  walker H (derefSchema H f1) f1 (VPtr 0) ([] ++ [VPtr 0])
                                    (Some (a, k)) child w
                                with
                                | Some (_, w') => go r0 w'
                                | None => None
                                end
                            | None => None
                            end
                        | None => None
                        end
                    end) keys wf)
          | None => None
          end
      | _ => Some (nv, wf)
      end = Some (nv, wf)).
  { destruct nv as [| | | | |a] eqn:El; try reflexivity.
    rewrite Hst. cbn [lookup list_lookup option_map]. rewrite Hne.
    assert (Hc : exists c, store wf !! a = Some c) by (inversion Hrf; subst; eauto).
    destruct Hc as [c Hc]. rewrite Hc. cbn [option_map].
    destruct (repr_cell _ a tgt c Hrf Hc) as [Hkeys Hchild]. rewrite Hkeys.
    assert (Hloop : forall ks, (forall k, In k ks -> In k (tree_keys tgt)) ->
      (fix go (keys : list key) (w : world) : option world :=
         match keys with
         | [] => Some w
         | k :: r =>
             match store w !! a with
             | None => None
             | Some c =>
                 match cell_get c k with
                 | None => None
                 | Some child =>
                     match walker H (derefSchema H f1) f1 (VPtr 0) ([] ++ [VPtr 0])
                             (Some (a, k)) child w with
                     | Some (_, w') => go r w'
                     | None => None
                     end
                 end
             end
         end) ks wf = Some wf).
    { induction ks as [|k ks IHk]; intros Hin; [reflexivity|].
      rewrite Hc.
      destruct (Hchild k (Hin k (or_introl eq_refl))) as (child & jk & Hgk & Hchk & _ & Hrk).
      rewrite Hgk.
      rewrite (walker_no_reference H (derefSchema H f1) f1 (VPtr 0) _ _ child jk wf Hrk).
      - apply IHk. intros; apply Hin; by right.
      - by eapply every_ref_child.
      - pose proof (depth_child _ _ _ Hchk). lia. }
    rewrite Hloop by auto. reflexivity. }
  rewrite Hwalk. clear Hwalk. rewrite Hef.
  exists (mkOutcome nv wf). split; [by destruct nv|].
  unfold returned_doc. cbn [returned after]. rewrite Hre, Hlf, Hmf, Hef.
  repeat split; auto. rewrite Hcf. destruct (Str.nonempty _); eauto.
Qed.

Lemma file_reference_resolves_witness :
  let H := Posix.host_of x_files in
  exists out, deref H 3 fresh_process (ref "x.json#/k") no_options = Some out
    /\ returned_doc out = Some (JNum 7)
    /\ exists lv, cache (after out) = [("/work/x.json", lv)]
                  /\ reify (S (length (store (after out)))) (store (after out)) lv
                     = Some (JObj [("k", JNum 7)]).
Proof.
  intros H.
  destruct (file_reference_resolves H fresh_process no_options "x.json#/k"
              (JObj [("k", JNum 7)]) (JNum 7) 3) as (out & E & Hr & Hc & _);
    try reflexivity.
  - simpl. lia.
  - exists out. split; [exact E|]. split; [exact Hr|]. exact Hc.
Defined.

Lemma alloc_falsy doc h :
  truthy (fst (alloc doc [])) = false ->
  truthy (fst (alloc doc h)) = false /\ snd (alloc doc h) = h.
Proof.
  destruct doc; try (intros; split; [assumption|reflexivity]); cbn [alloc].
  - by destruct ((fix go (l : list json) (h : heap) : list val * heap := _) items []).
  - by destruct ((fix go (l : list (string * json)) (h : heap)
                    : list (string * val) * heap := _) fields []).
Qed.

Lemma getRefSchema_unresolved H rec r t schema w :
  t <> Local -> cache w = [] ->
  (forall doc, t = File -> fileLoader H r (opts w) = Some doc ->
               truthy (fst (alloc doc [])) = false) ->
  exists w1, getRefSchema H rec r t schema w = Some (None, w1)
    /\ store w1 = store w /\ cache w1 = [] /\ st w1 = st w /\ opts w1 = opts w
    /\ loads w1 = loads w ++ match t with
                             | File => [mkLoad r (opts w) (full_path H r w)]
                             | _ => []
                             end.
Proof.
  intros Ht Hc Hl. destruct t; [congruence| |].
  - unfold getRefSchema, getRefSchema_file, file_value. cbn zeta. rewrite Hc.
    cbn [assoc truthy_opt opts add_load store].
    destruct (fileLoader H r (opts w)) as [doc|].
    + destruct (alloc_falsy doc (store w) (Hl doc eq_refl eq_refl)) as [Hf Hs].
      destruct (alloc doc (store w)) as [lv h]. cbn [fst snd] in Hf, Hs. subst h.
      rewrite Hf. unfold pick_value. rewrite Hf. eexists. split; [reflexivity|].
      cbn. auto 10.
    + eexists. split; [reflexivity|]. cbn. auto 10.
  - eexists. split; [reflexivity|]. rewrite app_nil_r. auto 10.
Qed.

Lemma addToHistory_fresh s t v :
  history s = [] -> Str.starts_with_hash v = false ->
  exists s1, addToHistory s t v = (true, s1)
    /\ missing s1 = missing s /\ error_ s1 = error_ s /\ cwd s1 = cwd s.
Proof.
  intros Hh Hv. unfold addToHistory. rewrite Hh.
  assert (Hne : String.eqb v "#" = false).
  { destruct (String.eqb_spec v "#"); [subst; discriminate|reflexivity]. }
  destruct t; rewrite ?Hne, ?nonempty_marker; try (eexists; split; [reflexivity|by cbn]).
  destruct (Str.nonempty _); eexists; (split; [reflexivity|by cbn]).
Qed.

(** X12: a reference that nothing resolves stays where it is.  For a
    document that is one reference [r], not a local one, of a kind without
    a loader, or to a file that the loader does not find or that holds a
    falsy document, [deref] records [r] as missing, keeps nothing in the
    cache, and returns the document as it was given, or with
    [failOnMissing] the error 'Missing $ref'; the loader is called once for
    a file reference and not at all otherwise. *)
Theorem unresolved_reference_left_intact (H : host) (p : process) (o : options)
    (r : string) (fuel : nat) :
  Str.starts_with_hash r = false ->
  (forall doc, is_file_ref H r = true -> fileLoader H r (defaults H o) = Some doc ->
               truthy (fst (alloc doc [])) = false) ->
  1 < fuel ->
  exists out, deref H fuel p (ref r) o = Some out
    /\ (failOnMissing o = false -> returned_doc out = Some (ref r)
                                   /\ error_ (st (after out)) = None)
    /\ (failOnMissing o = true -> returned out = VErr (MissingRef r))
    /\ missing (st (after out)) = [r]
    /\ cache (after out) = []
    /\ loads (after out)
       = if is_file_ref H r
         then [mkLoad r (defaults H o) (full_path H r (snd (initial_world H p (ref r) o)))]
         else [].
Proof.
  intros Hs Hl Hd.
  destruct fuel as [|[|f]]; [lia|lia|].
  assert (Hinit : exists w0, initial_world H p (ref r) o = (VPtr 0, w0)
            /\ store w0 = [CObj [("$ref", VStr r)]] /\ cache w0 = []
            /\ opts w0 = defaults H o /\ loads w0 = []
            /\ circular (st w0) = false /\ error_ (st w0) = None
            /\ history (st w0) = [] /\ missing (st w0) = [])
    by (eexists; split; [reflexivity|]; cbn; auto 10).
  destruct Hinit as (w0 & E0 & Hst & Hca & Hop & Hlo & Hci & Her & Hhi & Hmi).
  assert (Hfo : failOnMissing (opts w0) = failOnMissing o).
  { rewrite Hop. unfold defaults. by destruct (baseFolder o). }
  unfold deref. rewrite E0. cbn [snd]. rewrite <- Hop in *.
  rewrite derefSchema_S. unfold derefSchema_body.
  assert (Hg : getRefValue (store w0) (VPtr 0) = Some r) by (by rewrite Hst).
  assert (Hty : getRefType H (store w0) (VPtr 0)
                = if is_file_ref H r then File else Unsupported)
    by (unfold getRefType; by rewrite Hg, Hs).
  set (t := getRefType H (store w0) (VPtr 0)) in *.
  assert (Htl : t <> Local) by (rewrite Hty; by destruct (is_file_ref H r)).
  assert (Hck : checkLocalCircular H (S (S f)) (store w0) (VPtr 0) = Some None).
  { unfold checkLocalCircular. cbn [scan]. unfold collect_local. rewrite Hg. fold t.
    rewrite Hst. destruct t; [congruence| |]; cbn; reflexivity. }
  rewrite Hck, Hci, Her.
  destruct (addToHistory_fresh (st w0) t r Hhi Hs) as (s1 & Ea & Hm1 & He1 & Hc1).
  set (we := set_st (setCurrent s1 t r) w0).
  destruct (getRefSchema_unresolved H (derefSchema H (S f)) r t (VPtr 0) we Htl)
    as (w1 & Hgs & Hs1 & Hc1' & Hst1 & Ho1 & Hl1).
  { exact Hca. }
  { intros doc Hf Hdoc. apply (Hl doc); [|exact Hdoc].
    rewrite Hty in Hf. by destruct (is_file_ref H r). }
  assert (Hfull : full_path H r we = full_path H r w0).
  { unfold full_path. cbn [we st set_st].
    destruct (setCurrent_frame s1 t r) as (-> & _). by rewrite Hc1. }
  assert (Hv : visit H (derefSchema H (S f)) (VPtr 0) None (VPtr 0) w0
               = Some (visit_finish None (VPtr 0) r None w1)).
  { apply visit_resolved with s1; [exact Hg|exact Ea|exact Hgs]. }
  assert (HmP : missing (st w1) = []).
  { rewrite Hst1. cbn [we st set_st]. by rewrite setCurrent_missing, Hm1. }
  assert (HeP : error_ (st w1) = None).
  { rewrite Hst1. cbn [we st set_st].
    destruct (setCurrent_frame s1 t r) as (_ & -> & _). by rewrite He1. }
  destruct (visit_finish None (VPtr 0) r None w1) as [[x kg] wf] eqn:Efin.
  unfold visit_finish in Efin. cbn zeta in Efin.
  cbn [st set_st set_store missing history_pop set_history update opts] in Efin.
  rewrite HmP in Efin. change (Str.mem r []) with false in Efin. cbv iota in Efin.
  cbn [opts set_st] in Efin. rewrite Ho1 in Efin. cbn [we opts set_st] in Efin.
  rewrite Hfo in Efin.
  assert (Hsf : store wf = [CObj [("$ref", VStr r)]]
                /\ cache wf = [] /\ missing (st wf) = [r]
                /\ loads wf = (if is_file_ref H r
                               then [mkLoad r (opts w0) (full_path H r w0)] else [])
                /\ error_ (st wf) = if failOnMissing o then Some (MissingRef r) else None).
  { injection Efin as _ _ <-. destruct (failOnMissing o);
      cbn [store cache loads st set_st set_store missing error_ history_pop set_history
           set_missing set_error app];
      rewrite Hs1, Hc1', Hl1, ?HeP, Hfull, Hty; cbn [we store loads set_st opts];
      rewrite Hst, Hlo; destruct (is_file_ref H r); auto 10. }
  destruct Hsf as (Hsf & Hcf & Hmf & Hlf & Hef).
  destruct (failOnMissing o) eqn:Efo; cbn [opts set_st] in Efin; rewrite Ho1 in Efin;
    cbn [we opts set_st] in Efin; rewrite Hfo in Efin; cbn [negb] in Efin;
    injection Efin as <- <- _; cbn [walker]; rewrite Hv, Hst; cbn [negb].
  - rewrite Hef. eexists. split; [reflexivity|]. cbn [returned after].
    rewrite Hcf, Hmf, Hlf. repeat split; auto; discriminate.
  - cbn [is_circular existsb lookup list_lookup option_map objectKeys val_eqb Nat.eqb
         map fst]. rewrite Hsf.
    cbn [lookup list_lookup cell_get assoc String.eqb Ascii.eqb Bool.eqb visit getRefValue
         negb option_map].
    rewrite Hef. eexists. split; [reflexivity|]. unfold returned_doc.
    cbn [returned after]. rewrite Hcf, Hmf, Hlf, Hsf, Hef.
    repeat split; auto; discriminate.
Qed.

Lemma unresolved_reference_left_intact_witness :
  let H := Posix.host_of [("/work/zero.json", JNum 0)] in
  (exists out, deref H 2 fresh_process (ref "zero.json") no_options = Some out
     /\ returned_doc out = Some (ref "zero.json")
     /\ missing (st (after out)) = ["zero.json"]
     /\ length (loads (after out)) = 1)
  /\ (exists out, deref H 2 fresh_process (ref "http://host/x") strict_options = Some out
      /\ returned out = VErr (MissingRef "http://host/x")
      /\ loads (after out) = []).
Proof.
  intros H. split.
  - destruct (unresolved_reference_left_intact H fresh_process no_options "zero.json" 2)
      as (out & E & Hd & _ & Hm & _ & Hl); [reflexivity| |lia|].
    + intros doc _ [= <-]. reflexivity.
    + exists out. destruct (Hd eq_refl) as [Hr _]. rewrite Hl. auto.
  - destruct (unresolved_reference_left_intact H fresh_process strict_options
                "http://host/x" 2)
      as (out & E & _ & Hs & _ & _ & Hl); [reflexivity| |lia|].
    + intros doc [=].
    + exists out. rewrite Hl. auto.
Defined.

Lemma derefSchema_revisit H fuel a r' w :
  store w !! a = Some (CObj [("$ref", VStr r')]) ->
  Str.starts_with_hash r' = false -> is_file_ref H r' = true ->
  Str.nonempty (getRefFilePath r') = true ->
  Str.mem (Str.toLowerCase (getRefFilePath r')) (history (st w)) = true ->
  circular (st w) = false -> error_ (st w) = None ->
  1 < fuel ->
  derefSchema H fuel (VPtr a) w
  = Some (VPtr a,
          set_store (store w)
            (set_st (set_error (CircularRefsFound (circularRefs (st w) ++ [r']))
                       (set_circular r' (st w))) w)).
Proof.
  intros Hc Hs Hf Hp Hm Hci Her Hd. destruct fuel as [|[|f]]; [lia|lia|].
  rewrite derefSchema_S. unfold derefSchema_body.
  assert (Hg : getRefValue (store w) (VPtr a) = Some r')
    by (unfold getRefValue; by rewrite Hc).
  assert (Hty : getRefType H (store w) (VPtr a) = File)
    by (unfold getRefType; by rewrite Hg, Hs, Hf).
  assert (Hck : checkLocalCircular H (S (S f)) (store w) (VPtr a) = Some None).
  { unfold checkLocalCircular. cbn [scan]. unfold collect_local. rewrite Hg, Hty, Hc.
    cbn. reflexivity. }
  rewrite Hck, Hci, Her. cbn [walker]. unfold visit. rewrite Hg, Hty.
  unfold addToHistory. rewrite Hp, Hm. cbn [negb update]. reflexivity.
Qed.

Lemma file_entry_circularRefs H refVal doc w :
  circularRefs (st (file_entry H refVal doc w)) = circularRefs (st w).
Proof. unfold file_entry. cbn zeta. by destruct (Str.nonempty _). Qed.

Lemma setCurrent_circularRefs s t v : circularRefs (setCurrent s t v) = circularRefs s.
Proof. unfold setCurrent. destruct t; auto. by destruct (Str.nonempty _). Qed.

Lemma addToHistory_file_first s v :
  history s = [] -> Str.nonempty (getRefFilePath v) = true ->
  addToHistory s File v
  = (true, set_history [Str.toLowerCase (getRefFilePath v)] s).
Proof. unfold addToHistory. by intros -> ->. Qed.

(** X13: a file that refers back to itself is caught by the history of
    visited references.  For a document that is one reference to a file
    whose document is in turn one reference to a file of the same path, up
    to the case of letters, [deref] returns the error 'circular references
    found', naming the inner reference, after one call of the loader. *)
Theorem file_referring_to_itself_rejected (H : host) (p : process) (o : options)
    (r r' : string) (fuel : nat) :
  Str.starts_with_hash r = false -> is_file_ref H r = true -> Str.has_hash r = false ->
  Str.starts_with_hash r' = false -> is_file_ref H r' = true ->
  Str.nonempty (getRefFilePath r) = true ->
  Str.toLowerCase (getRefFilePath r') = Str.toLowerCase (getRefFilePath r) ->
  fileLoader H r (defaults H o) = Some (ref r') ->
  2 < fuel ->
  exists out, deref H fuel p (ref r) o = Some out
    /\ returned out = VErr (CircularRefsFound [r'])
    /\ circular (st (after out)) = true
    /\ loads (after out)
       = [mkLoad r (defaults H o) (full_path H r (snd (initial_world H p (ref r) o)))].
Proof.
  intros Hs Hf Hh Hs' Hf' Hp Hlow Hl Hd.
  destruct fuel as [|[|[|f]]]; [lia|lia|lia|].
  assert (Hinit : exists w0, initial_world H p (ref r) o = (VPtr 0, w0)
            /\ store w0 = [CObj [("$ref", VStr r)]] /\ cache w0 = []
            /\ opts w0 = defaults H o /\ loads w0 = []
            /\ circular (st w0) = false /\ error_ (st w0) = None
            /\ history (st w0) = [] /\ missing (st w0) = []
            /\ circularRefs (st w0) = [])
    by (eexists; split; [reflexivity|]; cbn; auto 10).
  destruct Hinit as (w0 & E0 & Hst & Hca & Hop & Hlo & Hci & Her & Hhi & Hmi & Hcr).
  unfold deref. rewrite E0. cbn [snd]. rewrite <- Hop in *.
  rewrite derefSchema_S. unfold derefSchema_body.
  assert (Hg : getRefValue (store w0) (VPtr 0) = Some r) by (by rewrite Hst).
  assert (Hty : getRefType H (store w0) (VPtr 0) = File)
    by (unfold getRefType; by rewrite Hg, Hs, Hf).
  assert (Hck : checkLocalCircular H (S (S (S f))) (store w0) (VPtr 0) = Some None).
  { unfold checkLocalCircular. cbn [scan]. unfold collect_local. rewrite Hg, Hty.
    rewrite Hst. cbn. reflexivity. }
  rewrite Hck, Hci, Her.
  pose proof (addToHistory_file_first (st w0) r Hhi Hp) as Ea.
  set (s1 := set_history [Str.toLowerCase (getRefFilePath r)] (st w0)) in *.
  set (we := set_st (setCurrent s1 File r) w0).
  set (wE := file_entry H r (ref r') we).
  destruct (file_entry_proj H r (ref r') we) as (HsE & HcE & HlE & HmE).
  destruct (file_entry_failure H r (ref r') we) as [HciE HerE].
  pose proof (file_entry_history H r (ref r') we) as HhE.
  fold wE in HsE, HcE, HlE, HmE, HciE, HerE, HhE.
  destruct (setCurrent_frame s1 File r) as (Hcw & He1 & Hc1).
  assert (HsE' : store wE = [CObj [("$ref", VStr r)]; CObj [("$ref", VStr r')]]).
  { rewrite HsE. cbn [we store set_st]. by rewrite Hst. }
  assert (Hrec : derefSchema H (S (S f)) (VPtr 1) wE
                 = Some (VPtr 1,
                         set_store (store wE)
                           (set_st (set_error
                                      (CircularRefsFound (circularRefs (st wE) ++ [r']))
                                      (set_circular r' (st wE))) wE))).
  { apply derefSchema_revisit; auto; try lia.
    - by rewrite HsE'.
    - by rewrite <- toLowerCase_nonempty, Hlow, toLowerCase_nonempty.
    - rewrite HhE. cbn [we st set_st]. rewrite setCurrent_history. cbn [s1 history
        set_history]. rewrite Hlow. cbn. by rewrite String.eqb_refl.
    - rewrite HciE. cbn [we st set_st]. by rewrite Hc1.
    - rewrite HerE. cbn [we st set_st]. by rewrite He1. }
  assert (HcrE : circularRefs (st wE) = []).
  { unfold wE. rewrite file_entry_circularRefs. cbn [we st set_st].
    by rewrite setCurrent_circularRefs. }
  rewrite HcrE in Hrec. cbn [app] in Hrec.
  set (wR := set_store (store wE) _) in Hrec.
  assert (Hal : fst (alloc (ref r') (store we)) = VPtr 1)
    by (cbn [we store set_st]; rewrite Hst; reflexivity).
  assert (Hfv : file_value H (derefSchema H (S (S f))) r we
                = Some (Some (VPtr 1), file_exit H r we wR)).
  { apply (file_value_load H _ r we (ref r')).
    - cbn [we cache set_st]. by rewrite Hca.
    - exact Hl.
    - by rewrite Hal.
    - rewrite Hal. exact Hrec. }
  set (wX := file_exit H r we wR) in *.
  destruct (file_exit_proj H r we wR) as (HsX & HcX & HlX & HmX).
  destruct (file_exit_failure H r we wR) as [HciX HerX].
  fold wX in HsX, HcX, HlX, HmX, HciX, HerX.
  cbn [wR store cache loads st set_st set_store missing circular error_ set_error
       set_circular] in HsX, HcX, HlX, HmX, HciX, HerX.
  assert (Hfull : full_path H r we = full_path H r w0).
  { unfold full_path. cbn [we st set_st]. by rewrite Hcw. }
  set (wP := if Str.nonempty (full_path H r w0)
             then set_cache [(full_path H r w0, VPtr 1)] wX else wX).
  assert (HwP : store wP = store wX /\ st wP = st wX /\ loads wP = loads wX).
  { subst wP. by destruct (Str.nonempty (full_path H r w0)). }
  destruct HwP as (HsP & HstP & HlP).
  assert (Hpk : pick_value r (full_path H r we) (Some (VPtr 1)) wX = (Some (VPtr 1), wP)).
  { unfold pick_value. cbn [truthy]. rewrite Hfull, HcX, HcE. cbn [we cache set_st].
    rewrite Hca, Hh. cbn [assoc truthy_opt negb assoc_put app]. by rewrite andb_true_r. }
  assert (Hv : visit H (derefSchema H (S (S f))) (VPtr 0) None (VPtr 0) w0
               = Some (visit_finish None (VPtr 0) r (Some (VPtr 1)) wP)).
  { apply visit_resolved with s1; [exact Hg|by rewrite Hty|rewrite Hty].
    unfold getRefSchema, getRefSchema_file. fold we. by rewrite Hfv, Hpk. }
  assert (HmP : missing (st wP) = []).
  { rewrite HstP, HmX, HmE. cbn [we st set_st]. by rewrite setCurrent_missing. }
  destruct (visit_finish None (VPtr 0) r (Some (VPtr 1)) wP) as [[x kg] wf] eqn:Efin.
  unfold visit_finish in Efin. cbn zeta in Efin.
  cbn [st set_st set_store missing history_pop set_history update] in Efin.
  rewrite HmP in Efin. change (Str.mem r []) with false in Efin. cbv iota in Efin.
  injection Efin as Ex Ek Ew. subst x kg.
  assert (Hwf : store wf = [CObj [("$ref", VStr r)]; CObj [("$ref", VStr r')]]
                /\ loads wf = [mkLoad r (opts w0) (full_path H r w0)]
                /\ circular (st wf) = true
                /\ error_ (st wf) = Some (CircularRefsFound [r'])).
  { rewrite <- Ew. cbn [store cache loads st set_st set_store missing error_ history_pop
                         set_history circular].
    rewrite HsP, HsX, HsE', HlP, HlX, HlE, HstP, HerX, HciX, Hfull.
    cbn [we st set_st loads opts]. rewrite Hlo. auto. }
  clear Ew. destruct Hwf as (Hsf & Hlf & Hcf & Hef).
  cbn [walker]. rewrite Hv, Hst, Hsf.
  cbn [is_circular existsb lookup list_lookup option_map objectKeys val_eqb Nat.eqb
       map fst negb]. rewrite Hsf.
  cbn [lookup list_lookup cell_get assoc String.eqb Ascii.eqb Bool.eqb visit getRefValue
       negb option_map].
  rewrite Hef. eexists. split; [reflexivity|]. cbn [returned after].
  by rewrite Hlf, Hcf.
Qed.

Lemma file_referring_to_itself_rejected_witness :
  let H := Posix.host_of [("/work/A.json", ref "a.JSON#/x")] in
  exists out, deref H 3 fresh_process (ref "A.json") no_options = Some out
    /\ returned out = VErr (CircularRefsFound ["a.JSON#/x"])
    /\ length (loads (after out)) = 1.
Proof.
  intros H.
  destruct (file_referring_to_itself_rejected H fresh_process no_options
              "A.json" "a.JSON#/x" 3) as (out & E & Hr & _ & Hl);
    try reflexivity; [lia|].
  exists out. rewrite Hl. auto.
Defined.
